(** * Predix Asset migration: a model of [migrate-asset.js]

    The script copies every domain object instance of one Predix Asset
    zone into another one.  This development embeds its four functions
    ([requestToken], [requestAssetData], [getDomainObjectInstances] and
    [migrate]) and proves what they do.

    The network, the clock, [JSON.parse] and the string conversion of
    template literals are the environment of the script: the replies of the
    network and the readings of the clock are scripted, the other two are
    section variables.  lodash's [_.chunk] and [_.each] are modelled after
    their documentation, and so are bluebird's promises: the handlers of a
    promise run after the turn of the event loop in which it was settled,
    in the order in which they were queued.  Which callbacks of [request]
    share a turn is left to the environment. *)

From Stdlib Require Import String Ascii List ZArith Lia Bool Arith.
From Stdlib Require Import DecimalString.
From Equations Require Import Equations.
Import ListNotations.

Local Open Scope string_scope.
Local Open Scope Z_scope.
Local Open Scope list_scope.

(** ** JavaScript strings

    A string is a sequence of code units; [indexOf] and [substring] are
    the two [String.prototype] methods the script calls. *)
Module JsString.

(** [s.indexOf(c)] for a one-character [c]: the position of the first
    occurrence, [-1] when there is none. *)
Fixpoint indexOf (s : string) (c : ascii) : Z :=
  match s with
  | EmptyString => -1
  | String a rest =>
      if Ascii.eqb a c then 0
      else let i := indexOf rest c in
           if i <? 0 then -1 else i + 1
  end.

Definition clamp (len i : Z) : Z := Z.min (Z.max i 0) len.

(** [s.substring(start, end)]: both indices are clamped to
    [0 .. s.length] and swapped when [start] exceeds [end]. *)
Definition substring (s : string) (start fin : Z) : string :=
  let len := Z.of_nat (String.length s) in
  let a := clamp len start in
  let b := clamp len fin in
  let from := Z.min a b in
  let to := Z.max a b in
  String.substring (Z.to_nat from) (Z.to_nat (to - from)) s.

(** A string is truthy exactly when it is not empty. *)
Definition truthy (s : string) : bool :=
  match s with EmptyString => false | String _ _ => true end.

(** Membership of a code unit, as a boolean. *)
Fixpoint mem (c : ascii) (s : string) : bool :=
  match s with
  | EmptyString => false
  | String a rest => Ascii.eqb a c || mem c rest
  end.

(** The string without its last code unit. *)
Fixpoint chop (s : string) : string :=
  match s with
  | EmptyString => EmptyString
  | String a EmptyString => EmptyString
  | String a rest => String a (chop rest)
  end.

(** What follows the first occurrence of [c], if any. *)
Fixpoint after (c : ascii) (s : string) : option string :=
  match s with
  | EmptyString => None
  | String a rest => if Ascii.eqb a c then Some rest else after c rest
  end.

(** What precedes the first occurrence of [c], if any. *)
Fixpoint before (c : ascii) (s : string) : option string :=
  match s with
  | EmptyString => None
  | String a rest =>
      if Ascii.eqb a c then Some EmptyString
      else option_map (String a) (before c rest)
  end.

End JsString.

(** ** The continuation link *)

(** Line 96:
    [link.substring(link.indexOf('<') + 1, link.indexOf('>') - 1)]. *)
Definition nextUrl (link : string) : string :=
  JsString.substring link
    (JsString.indexOf link "<"%char + 1)
    (JsString.indexOf link ">"%char - 1).

(** The delimiter rule in the words of the specification: the substring
    strictly between the first ['<'] and the first ['>'] thereafter. *)
Definition between_brackets (link : string) : option string :=
  match JsString.after "<"%char link with
  | Some rest => JsString.before ">"%char rest
  | None => None
  end.


(** ** JavaScript values

    What [JSON.parse] returns, plus [undefined] and the [Date] objects the
    script creates.  Numbers are integral: none is ever computed with.  An
    object is the list of its own properties in the order [Object.keys]
    lists them; an array is its list of elements; a [Date] is its time
    value. *)
#[warnings="-register-all"]
Inductive value : Type :=
| VUndefined
| VNull
| VBool (b : bool)
| VNum (n : Z)
| VStr (s : string)
| VDate (t : Z)
| VArr (items : list value)
| VObj (props : list (string * value)).

(** Truthiness, as [x ? a : b] and [x && y] test it. *)
Definition truthy (v : value) : bool :=
  match v with
  | VUndefined | VNull => false
  | VBool b => b
  | VNum n => negb (n =? 0)
  | VStr s => JsString.truthy s
  | VDate _ | VArr _ | VObj _ => true
  end.

(** First binding of a key in a property list. *)
Fixpoint assoc {A : Type} (k : string) (l : list (string * A)) : option A :=
  match l with
  | [] => None
  | (k', a) :: rest => if String.eqb k' k then Some a else assoc k rest
  end.

(** [o[k] = v] on a property list: the binding is replaced where it
    stands, or added at the end. *)
Fixpoint set_prop {A : Type} (k : string) (v : A) (l : list (string * A))
  : list (string * A) :=
  match l with
  | [] => [(k, v)]
  | (k', a) :: rest =>
      if String.eqb k' k then (k', v) :: rest else (k', a) :: set_prop k v rest
  end.

(** Reading any property of [undefined] or [null] throws a [TypeError]. *)
Definition nullish (v : value) : bool :=
  match v with VUndefined | VNull => true | _ => false end.

(** [v.k] for one of the keys [collection], [count] and [access_token],
    which no prototype defines: [None] stands for the [TypeError]. *)
Definition member (v : value) (k : string) : option value :=
  match v with
  | VUndefined | VNull => None
  | VObj props =>
      match assoc k props with Some x => Some x | None => Some VUndefined end
  | _ => Some VUndefined
  end.

(** [instances.concat(x)]: an array argument is spread, anything else is
    added as one element. *)
Definition Array_concat (instances : list value) (x : value) : list value :=
  match x with
  | VArr items => instances ++ items
  | _ => instances ++ [x]
  end.

(** [n.toString()] of an integral number. *)
Definition Number_toString (n : Z) : string :=
  NilZero.string_of_int (Z.to_int n).

(** ** lodash *)

(** [_.chunk(array, size)]: consecutive slices of [size] elements, the last
    one holding what is left; no slice at all for an empty array or a size
    below one. *)
Equations? chunk {A : Type} (size : nat) (l : list A) : list (list A)
  by wf (length l) lt :=
  chunk O _ := [];
  chunk (S n) [] := [];
  chunk (S n) (x :: xs) := (x :: firstn n xs) :: chunk (S n) (skipn n xs).
Proof. rewrite length_skipn. lia. Qed.

(** The one-character strings of a string. *)
Fixpoint characters (s : string) : list value :=
  match s with
  | EmptyString => []
  | String c rest => VStr (String c EmptyString) :: characters rest
  end.

(** [Number.MAX_SAFE_INTEGER]. *)
Definition MAX_SAFE_INTEGER : Z := 9007199254740991.

(** [object[index]]. *)
Definition at_index (props : list (string * value)) (index : nat) : value :=
  match assoc (Number_toString (Z.of_nat index)) props with
  | Some v => v
  | None => VUndefined
  end.

(** The elements [_.each(collection, f)] visits, in order: those of an
    array, the characters of a string, the property values of an object
    (or, when the object has a [length] that is a valid array length, what
    it holds at the indices below it), and none for any other value. *)
Definition each_elements (collection : value) : list value :=
  match collection with
  | VArr items => items
  | VStr s => characters s
  | VObj props =>
      match assoc "length" props with
      | Some (VNum n) =>
          if (0 <=? n) && (n <=? MAX_SAFE_INTEGER)
          then map (at_index props) (seq 0 (Z.to_nat n))
          else map snd props
      | _ => map snd props
      end
  | _ => []
  end.

(** ** The environment: [request], promises, the console *)

(** What the [request] callback receives as [response]. *)
Record response : Type := {
  statusCode : Z;
  headers : option (list (string * string))
}.

(** One call of [request(options, callback)]: the call throws, or the
    callback never fires, or it fires with [(error, response, body)];
    [error] tells whether an error object was passed. *)
Inductive transport : Type :=
| Throws
| Hangs
| Calls (error : bool) (resp : option response) (body : value).

(** Whether the call of [request] throws.  The promise made around the
    call is then rejected before it is returned; in every other case it is
    settled by the callback, in a later turn of the event loop. *)
Definition synchronous (t : transport) : bool :=
  match t with Throws => true | _ => false end.

(** The final state of a promise. *)
Inductive promise (A : Type) : Type :=
| Resolved (a : A)
| Rejected
| Pending.
Arguments Resolved {A} a.
Arguments Rejected {A}.
Arguments Pending {A}.

(** The options of a [request] made by [requestAssetData]. *)
Record assetRequest : Type := {
  url : string;
  zoneId : string;
  authorization : string;
  forceWrite : bool;
  method : string;
  json : bool;
  body : value
}.

(** The lines the script prints; each constructor is one template. *)
Inductive message : Type :=
| RetrievingOriginToken
| RetrievingDestinationToken
| ErrorOriginToken
| ErrorDestinationToken
| OK
| RetrievingDomainObjects
| Found (domainObjects : value)
| LoadingData (collection : value)
| Loaded (n : nat) (target : value)
| FinishedLoading (n : nat)
| PostingTo (n : nat)
| PostingChunk (n : nat)
| FinishedPosting (n : nat)
| ErrorPosting
| ErrorListing
| CheckCredentials.

(** What the script does that can be seen from outside.  [Throw] is an
    exception leaving the callback or handler that is running.  The model
    goes on past it; a host that ends the process there performs a prefix of
    the events listed. *)
Inductive event : Type :=
| TokenRequest (tokenUrl basic : string)
| AssetRequest (r : assetRequest)
| Log (m : message)
| Err (m : message)
| Throw.

(** A promise-returning call: what it does before it returns, what its
    callback does, and how the promise ends. *)
Record call (A : Type) : Type := {
  issued : list event;
  later : list event;
  settled : promise A
}.
Arguments issued {A} c.
Arguments later {A} c.
Arguments settled {A} c.

(** What [requestAssetData] resolves with. *)
Record reply : Type := {
  reply_body : value;
  reply_headers : list (string * string)
}.

(** [asset-config.json]. *)
Record config : Type := {
  originalUaaUrl : string;
  originalUaaCredentials : string;
  originalAssetUrl : string;
  originalAssetZoneId : string;
  destinationUaaUrl : string;
  destinationUaaCredentials : string;
  destinationAssetUrl : string;
  destinationAssetZoneId : string
}.

Definition queryLimit : nat := 1000.

(** ** The script *)

Section Script.

(** [JSON.parse(x)]: [None] when it throws. *)
Variable JSON_parse : value -> option value.

(** The conversion a template literal applies to an interpolated value. *)
Variable ToString : value -> string.

Variable localConfig : config.

(** Lines 20-40.  An exception of the executor rejects the promise; one
    thrown by [JSON.parse] inside the callback leaves it pending. *)
Definition requestToken (uaaUrl credentials : string) (t : transport)
  : call value :=
  let options :=
    TokenRequest (uaaUrl ++ "/oauth/token") ("Basic " ++ credentials) in
  match t with
  | Throws => {| issued := [options]; later := []; settled := Rejected |}
  | Hangs => {| issued := [options]; later := []; settled := Pending |}
  | Calls error resp body =>
      if negb error
         && match resp with
            | Some r => statusCode r =? 200
            | None => false
            end
      then match JSON_parse body with
           | Some v =>
               {| issued := [options]; later := []; settled := Resolved v |}
           | None =>
               {| issued := [options]; later := [Throw]; settled := Pending |}
           end
      else {| issued := [options]; later := []; settled := Rejected |}
  end.

(** Lines 54-63: the options handed to [request]. *)
Definition assetOptions (url zoneId token : string) (method : option string)
    (body : value) : assetRequest :=
  {| url := url;
     zoneId := zoneId;
     authorization := token;
     forceWrite :=
       match method with Some m => String.eqb m "POST" | None => false end;
     method :=
       match method with
       | Some m => if JsString.truthy m then m else "GET"
       | None => "GET"
       end;
     json := truthy body;
     body := if truthy body then body else VNull |}.

(** Line 65: [response.statusCode.toString().indexOf('2') !== 0]. *)
Definition not_2xx (r : response) : bool :=
  negb (JsString.indexOf (Number_toString (statusCode r)) "2"%char =? 0).

(** Lines 51-80. *)
Definition requestAssetData (url zoneId token : string)
    (method : option string) (body : value) (t : transport) : call reply :=
  let options := AssetRequest (assetOptions url zoneId token method body) in
  match t with
  | Throws => {| issued := [options]; later := []; settled := Rejected |}
  | Hangs => {| issued := [options]; later := []; settled := Pending |}
  | Calls error resp body =>
      if error || match resp with Some r => not_2xx r | None => false end
      then {| issued := [options]; later := []; settled := Rejected |}
      else
        let hs :=
          match resp with
          | Some r => match headers r with Some h => h | None => [] end
          | None => []
          end in
        if truthy body
        then match JSON_parse body with
             | Some v =>
                 {| issued := [options]; later := [];
                    settled := Resolved {| reply_body := v;
                                           reply_headers := hs |} |}
             | None =>
                 {| issued := [options]; later := [Throw];
                    settled := Pending |}
             end
        else {| issued := [options]; later := [];
                settled := Resolved {| reply_body := VNull;
                                       reply_headers := hs |} |}
  end.

(** Line 95: the [link] header when it is there and not empty. *)
Definition continuation (r : reply) : option string :=
  match assoc "link" (reply_headers r) with
  | Some link => if JsString.truthy link then Some link else None
  | None => None
  end.

(** Lines 90-107.  [script] holds the replies of the successive [GET]s;
    once it is used up the network stays silent.  A rejection of the
    nested call has no handler (line 97), so the outer promise stays
    pending. *)
Fixpoint getDomainObjectInstances (url zoneId token : string)
    (instances : list value) (target : value) (script : list transport)
  : list event * promise (list value) :=
  match script with
  | [] =>
      (issued (requestAssetData url zoneId token None VUndefined Hangs),
       Pending)
  | t :: rest =>
      let c := requestAssetData url zoneId token None VUndefined t in
      match settled c with
      | Resolved response =>
          let instances := Array_concat instances (reply_body response) in
          let seen :=
            issued c ++ later c ++ [Log (Loaded (length instances) target)] in
          match continuation response with
          | Some link =>
              let '(evs, p) :=
                getDomainObjectInstances (nextUrl link) zoneId token
                  instances target rest in
              (seen ++ evs,
               match p with
               | Resolved fullList => Resolved fullList
               | _ => Pending
               end)
          | None => (seen, Resolved instances)
          end
      | Rejected => (issued c ++ later c, Rejected)
      | Pending => (issued c ++ later c, Pending)
      end
  end.

(** Lines 155-156: [item.migrationDate = new Date()].  In strict mode the
    assignment throws on [undefined], [null] and the primitive values; on
    an array or a [Date] it sets a property that is no element and is not
    serialised. *)
Definition stamp (now : Z) (item : value) : option value :=
  match item with
  | VObj props => Some (VObj (set_prop "migrationDate" (VDate now) props))
  | VArr items => Some (VArr items)
  | VDate t => Some (VDate t)
  | _ => None
  end.

(** Lines 154-157, [chunk.map(...)]: [clock k] is what the [k]-th
    [new Date()] of the handler returns; [None] when an assignment
    throws. *)
Fixpoint stampAll (clock : nat -> Z) (k : nat) (items : list value)
  : option (list value) :=
  match items with
  | [] => Some []
  | item :: rest =>
      match stamp (clock k) item with
      | Some item' =>
          option_map (cons item') (stampAll clock (S k) rest)
      | None => None
      end
  end.

(** Lines 151-158, the loop over the chunks: its events, the calls it
    has made, and whether it ran to its end.  [posts] scripts the replies
    to the successive [POST]s. *)
Fixpoint postChunks (destinationToken : string) (collection : value)
    (clock : nat -> Z) (k : nat) (chunks : list (list value))
    (posts : list transport)
  : list event * list (call reply) * bool :=
  match chunks with
  | [] => ([], [], true)
  | c :: rest =>
      let destinationDomainObjectUrl :=
        (destinationAssetUrl localConfig ++ "/" ++ ToString collection)%string
      in
      match stampAll clock k c with
      | Some stamped =>
          let p :=
            requestAssetData destinationDomainObjectUrl
              (destinationAssetZoneId localConfig)
              destinationToken (Some "POST") (VArr stamped) (hd Hangs posts) in
          let '(evs, calls, done) :=
            postChunks destinationToken collection clock (k + length c)%nat
              rest (tl posts) in
          (Log (PostingChunk (length c)) :: issued p ++ evs, p :: calls, done)
      | None => ([Log (PostingChunk (length c)); Throw], [], false)
      end
  end.

Definition is_resolved {A : Type} (p : promise A) : bool :=
  match p with Resolved _ => true | _ => false end.

Definition is_rejected {A : Type} (p : promise A) : bool :=
  match p with Rejected => true | _ => false end.

(** What the replies to one collection's requests will be, and its
    clock.  The callbacks of the [POST]s fire in the order of the chunks;
    [together k] tells whether the callback of the [POST] after the [k]-th
    fires in the same turn of the event loop as that of the [k]-th, that
    is before the handlers that the [k]-th has queued are run. *)
Record collectionReplies : Type := {
  pages : list transport;
  posts : list transport;
  together : nat -> bool;
  clock : nat -> Z
}.

(** Lines 159-163, [Promise.all(promiseList).then(...)] on failure.  The
    first rejection among the [POST]s queues the rejection handler, which
    bluebird runs when the turn of the event loop is over: [queued] tells
    that the handler waits for the end of the turn, [reported] that it has
    run. *)
Fixpoint postCallbacks (together : nat -> bool) (k : nat)
    (queued reported : bool) (calls : list (call reply)) : list event :=
  match calls with
  | [] => if queued then [Err ErrorPosting] else []
  | c :: rest =>
      let queued := queued || (is_rejected (settled c) && negb reported) in
      later c
      ++ (if together k
          then postCallbacks together (S k) queued reported rest
          else (if queued then [Err ErrorPosting] else [])
               ++ postCallbacks together (S k) false (reported || queued)
                    rest)
  end.

(** Lines 147-163, the handler run with the full list of instances.  The
    script cuts it in chunks of [queryLimit]; the size is an argument here
    so that the partition can be stated for any size.  When the loop has
    run to its end, [Promise.all] is rejected at once if one of the
    [POST]s threw, and reports the failure before any callback fires;
    otherwise it reports the first rejection at the end of the turn in
    which it happens, or success once all the promises have resolved.
    When an exception has ended the loop, line 159 is not reached and
    only the callbacks are left. *)
Definition postInstances (size : nat) (destinationToken : string)
    (collection : value) (w : collectionReplies) (instances : list value)
  : list event :=
  let n := length instances in
  let '(evs, calls, done) :=
    postChunks destinationToken collection (clock w) 0
      (chunk size instances) (posts w) in
  [Log (FinishedLoading n); Log (PostingTo n)] ++ evs
  ++ (if done then
        let thrown :=
          existsb synchronous (firstn (length calls) (posts w)) in
        (if thrown then [Err ErrorPosting] else [])
        ++ postCallbacks (together w) 0 false thrown calls
        ++ (if forallb (fun c => is_resolved (settled c)) calls
            then [Log (FinishedPosting n)]
            else [])
      else flat_map later calls).

(** Line 144. *)
Definition originDomainObjectUrl (collection : value) : string :=
  originalAssetUrl localConfig ++ "/" ++ ToString collection
  ++ "?pageSize=" ++ ToString (VNum (Z.of_nat queryLimit)).

(** Lines 146-164: what one collection's pagination does, and the list
    it resolves with. *)
Definition loadInstances (originalToken : string) (domainObject : value)
    (collection : value) (w : collectionReplies)
  : list event * promise (list value) :=
  getDomainObjectInstances (originDomainObjectUrl collection)
    (originalAssetZoneId localConfig) originalToken []
    match member domainObject "count" with
    | Some count => count
    | None => VUndefined
    end
    (pages w).

(** Lines 142-165, the body of the loop for one domain object: [None]
    when reading [domainObject.collection] throws.  The promise of line
    146 has no rejection handler. *)
Definition migrateDomainObject (originalToken destinationToken : string)
    (domainObject : value) (w : collectionReplies) : option (list event) :=
  match member domainObject "collection" with
  | None => None
  | Some collection =>
      let '(evs, p) := loadInstances originalToken domainObject collection w in
      Some (Log (LoadingData collection) :: evs
            ++ match p with
               | Resolved instances =>
                   postInstances queryLimit destinationToken collection w
                     instances
               | _ => []
               end)
  end.

(** Line 142, [_.each(domainObjects, ...)]: one pipeline per domain
    object; an exception in the loop body ends the loop. *)
Fixpoint eachDomainObject (originalToken destinationToken : string)
    (domainObjects : list value) (ws : nat -> collectionReplies) (i : nat)
  : list (list event) :=
  match domainObjects with
  | [] => []
  | domainObject :: rest =>
      match migrateDomainObject originalToken destinationToken
              domainObject (ws i) with
      | Some evs =>
          evs :: eachDomainObject originalToken destinationToken rest ws (S i)
      | None => [[Throw]]
      end
  end.

(** Lines 120 and 129. *)
Definition bearer (tokenResponse : value) : option string :=
  match member tokenResponse "access_token" with
  | Some access_token => Some ("Bearer " ++ ToString access_token)%string
  | None => None
  end.

(** Lines 119-123 and 128-132: what the handlers of a token promise do
    once it is settled. *)
Definition tokenHandlers (failure : message) (c : call value) : list event :=
  match settled c with
  | Resolved tokenResponse =>
      match bearer tokenResponse with Some _ => [] | None => [Throw] end
  | Rejected => [Err failure]
  | Pending => []
  end.

(** The token variable of lines 11-12 once the handlers have run. *)
Definition tokenOf (c : call value) : string :=
  match settled c with
  | Resolved tokenResponse =>
      match bearer tokenResponse with Some t => t | None => EmptyString end
  | _ => EmptyString
  end.

(** Everything the network will answer during one run; [destinationFirst]
    tells which token callback fires first, and [sameTurn] whether the two
    fire in the same turn of the event loop, that is before the handlers
    that the first has queued are run. *)
Record world : Type := {
  originReply : transport;
  destinationReply : transport;
  destinationFirst : bool;
  sameTurn : bool;
  listingReply : transport;
  repliesOf : nat -> collectionReplies
}.

(** A run: the events of the token and listing phases in the order they
    happen, and one sequence of events per domain object; the sequences of
    different domain objects run concurrently. *)
Record run : Type := {
  main : list event;
  pipelines : list (list event)
}.

(** Lines 135-168: the handler of [Promise.all] on success. *)
Definition listDomainObjects (originalToken destinationToken : string)
    (w : world) : run :=
  let l :=
    requestAssetData (originalAssetUrl localConfig)
      (originalAssetZoneId localConfig) originalToken None VUndefined
      (listingReply w) in
  let seen := [Log OK; Log RetrievingDomainObjects] ++ issued l ++ later l in
  match settled l with
  | Resolved response =>
      let domainObjects := reply_body response in
      if nullish domainObjects
      then {| main := seen ++ [Throw]; pipelines := [] |}
      else {| main := seen ++ [Log (Found domainObjects)];
              pipelines :=
                eachDomainObject originalToken destinationToken
                  (each_elements domainObjects) (repliesOf w) 0 |}
  | Rejected => {| main := seen ++ [Err ErrorListing]; pipelines := [] |}
  | Pending => {| main := seen; pipelines := [] |}
  end.

(** Lines 119-134 and 169-171: what the callbacks of the two token
    requests do, and the handlers they queue.  bluebird runs the queued
    handlers when the turn of the event loop is over, in the order in which
    they were queued: those of a token promise when it is settled, the
    rejection handler of [Promise.all] when the first rejection reaches it,
    which is when the handler of that token promise has run.  A promise
    rejected because [request] threw has its handlers queued by the script
    itself, origin first, and they run before any callback fires. *)
Definition tokenCallbacks (w : world) (o d : call value) : list event :=
  let thrown_o := synchronous (originReply w) in
  let thrown_d := synchronous (destinationReply w) in
  let destinationLeads := negb thrown_o && (thrown_d || destinationFirst w) in
  let oneTurn :=
    if thrown_o || thrown_d then thrown_o && thrown_d else sameTurn w in
  let '(first, second) :=
    if destinationLeads
    then ((ErrorDestinationToken, d), (ErrorOriginToken, o))
    else ((ErrorOriginToken, o), (ErrorDestinationToken, d)) in
  if oneTurn
  then
    later (snd first) ++ later (snd second)
    ++ tokenHandlers (fst first) (snd first)
    ++ tokenHandlers (fst second) (snd second)
    ++ (if is_rejected (settled (snd first))
           || is_rejected (settled (snd second))
        then [Err CheckCredentials] else [])
  else
    later (snd first) ++ tokenHandlers (fst first) (snd first)
    ++ (if is_rejected (settled (snd first))
        then [Err CheckCredentials] else [])
    ++ later (snd second) ++ tokenHandlers (fst second) (snd second)
    ++ (if negb (is_rejected (settled (snd first)))
           && is_rejected (settled (snd second))
        then [Err CheckCredentials] else []).

(** Lines 112-172. *)
Definition migrate (w : world) : run :=
  let o :=
    requestToken (originalUaaUrl localConfig)
      (originalUaaCredentials localConfig) (originReply w) in
  let d :=
    requestToken (destinationUaaUrl localConfig)
      (destinationUaaCredentials localConfig) (destinationReply w) in
  let started :=
    [Log RetrievingOriginToken] ++ issued o
    ++ [Log RetrievingDestinationToken] ++ issued d in
  let arrived := tokenCallbacks w o d in
  if is_resolved (settled o) && is_resolved (settled d)
  then
    let r := listDomainObjects (tokenOf o) (tokenOf d) w in
    {| main := started ++ arrived ++ main r; pipelines := pipelines r |}
  else {| main := started ++ arrived; pipelines := [] |}.

End Script.

(** ** Schedules

    The pipelines of a run interleave freely.  In a schedule every event
    carries the index of the pipeline it belongs to, [None] for the token
    and listing phases. *)
Inductive interleaving {A : Type} : list (list A) -> list A -> Prop :=
| interleaving_done (ls : list (list A)) :
    Forall (fun l => l = []) ls -> interleaving ls []
| interleaving_step (before : list (list A)) (x : A) (l : list A)
    (after : list (list A)) (t : list A) :
    interleaving (before ++ l :: after) t ->
    interleaving (before ++ (x :: l) :: after) (x :: t).

(** Each pipeline's events with its index, counted from [i]. *)
Fixpoint labelled (i : nat) (ls : list (list event))
  : list (list (option nat * event)) :=
  match ls with
  | [] => []
  | l :: rest => map (pair (Some i)) l :: labelled (S i) rest
  end.

(** [t] is one order in which the events of the run [r] can happen: those
    of the token and listing phases first, then the pipelines' events
    interleaved. *)
Definition schedule (r : run) (t : list (option nat * event)) : Prop :=
  exists s,
    interleaving (labelled 0 (pipelines r)) s
    /\ t = map (pair None) (main r) ++ s.

(** ** Classifying events *)

Definition is_asset_request (e : event) : bool :=
  match e with AssetRequest _ => true | _ => false end.

Definition is_get (e : event) : bool :=
  match e with AssetRequest r => String.eqb (method r) "GET" | _ => false end.

Definition is_post (e : event) : bool :=
  match e with AssetRequest r => String.eqb (method r) "POST" | _ => false end.

Definition is_err (e : event) : bool :=
  match e with Err _ => true | _ => false end.

(** The records a [POST] carries. *)
Definition posted (e : event) : list (list value) :=
  match e with
  | AssetRequest r =>
      if String.eqb (method r) "POST"
      then match body r with VArr items => [items] | _ => [] end
      else []
  | _ => []
  end.

(** ** A sample environment

    Used by the examples only.  [Sample.JSON_parse] agrees with [JSON.parse]
    on the texts of [Sample.texts] and on numbers, booleans and [null], and
    is taken to throw on everything else; of these the examples parse only
    the text [<html>], on which [JSON.parse] throws as well.
    [Sample.ToString] is the conversion of the primitive values. *)
Module Sample.

Definition quoted (s : string) : string :=
  String "034"%char (s ++ String "034"%char EmptyString).

(** [[{"collection":"sensors","count":2}]] *)
Definition listing_text : string :=
  "[{" ++ quoted "collection" ++ ":" ++ quoted "sensors" ++ ","
  ++ quoted "count" ++ ":2}]".

Definition sensors : value :=
  VObj [("collection", VStr "sensors"); ("count", VNum 2)].

(** [[{"collection":"a","count":1},{"collection":"b","count":1}]] *)
Definition listing2_text : string :=
  "[{" ++ quoted "collection" ++ ":" ++ quoted "a" ++ ","
  ++ quoted "count" ++ ":1},{" ++ quoted "collection" ++ ":" ++ quoted "b"
  ++ "," ++ quoted "count" ++ ":1}]".

Definition collection_a : value :=
  VObj [("collection", VStr "a"); ("count", VNum 1)].

Definition collection_b : value :=
  VObj [("collection", VStr "b"); ("count", VNum 1)].

(** [{"access_token":"t"}] *)
Definition token_text : string :=
  "{" ++ quoted "access_token" ++ ":" ++ quoted "t" ++ "}".

(** [[{"uri":"/sensors/1"}]] and [[{"uri":"/sensors/2"}]] *)
Definition page1_text : string :=
  "[{" ++ quoted "uri" ++ ":" ++ quoted "/sensors/1" ++ "}]".

Definition page2_text : string :=
  "[{" ++ quoted "uri" ++ ":" ++ quoted "/sensors/2" ++ "}]".

Definition sensor1 : value := VObj [("uri", VStr "/sensors/1")].
Definition sensor2 : value := VObj [("uri", VStr "/sensors/2")].

Definition texts : list (string * value) :=
  [ ("{}", VObj []);
    ("[]", VArr []);
    ("null", VNull);
    ("[{}]", VArr [VObj []]);
    (token_text, VObj [("access_token", VStr "t")]);
    (listing_text, VArr [sensors]);
    (listing2_text, VArr [collection_a; collection_b]);
    (page1_text, VArr [sensor1]);
    (page2_text, VArr [sensor2]) ].

Definition JSON_parse (x : value) : option value :=
  match x with
  | VStr s => assoc s texts
  | VNum n => Some (VNum n)
  | VBool b => Some (VBool b)
  | VNull => Some VNull
  | _ => None
  end.

Definition ToString (x : value) : string :=
  match x with
  | VUndefined => "undefined"
  | VNull => "null"
  | VBool true => "true"
  | VBool false => "false"
  | VNum n => Number_toString n
  | VStr s => s
  | _ => "[object Object]"
  end.

Definition localConfig : config :=
  {| originalUaaUrl := "https://uaa.origin";
     originalUaaCredentials := "b3JpZ2lu";
     originalAssetUrl := "https://asset.origin";
     originalAssetZoneId := "zone-origin";
     destinationUaaUrl := "https://uaa.destination";
     destinationUaaCredentials := "ZGVzdA==";
     destinationAssetUrl := "https://asset.destination";
     destinationAssetZoneId := "zone-destination" |}.

(** A reply with the given status, headers and text. *)
Definition answer (status : Z) (hs : list (string * string)) (text : string)
  : transport :=
  Calls false (Some {| statusCode := status; headers := Some hs |})
    (VStr text).

Definition no_content : transport := answer 204 [] EmptyString.

Definition tick (k : nat) : Z := 1000 + Z.of_nat k.

(** Two pages of one sensor each, the first with a continuation link. *)
Definition next_link : string :=
  "<https://asset.origin/sensors?pageSize=1000&cursor=2>; rel=next".

Definition two_pages : collectionReplies :=
  {| pages := [answer 200 [("link", next_link)] page1_text;
               answer 200 [] page2_text];
     posts := [no_content];
     together := fun _ => false;
     clock := tick |}.

Definition one_page : collectionReplies :=
  {| pages := [answer 200 [] page1_text];
     posts := [no_content];
     together := fun _ => false;
     clock := tick |}.

(** The first page is refused. *)
Definition first_page_fails : collectionReplies :=
  {| pages := [answer 500 [] EmptyString]; posts := [];
     together := fun _ => false; clock := tick |}.

(** The second page is refused. *)
Definition second_page_fails : collectionReplies :=
  {| pages := [answer 200 [("link", next_link)] page1_text;
               answer 500 [] EmptyString];
     posts := [];
     together := fun _ => false;
     clock := tick |}.

(** A run whose token requests get [origin] and [destination] as status
    and whose listing is the given text. *)
Definition world_of (origin destination : Z) (listing : string)
    (replies : nat -> collectionReplies) : world :=
  {| originReply := answer origin [] token_text;
     destinationReply := answer destination [] token_text;
     destinationFirst := false;
     sameTurn := false;
     listingReply := answer 200 [] listing;
     repliesOf := replies |}.

(** The destination's identity provider answers 401. *)
Definition unauthorized : world :=
  world_of 200 401 listing_text (fun _ => two_pages).

(** One collection of one page. *)
Definition sensors_world : world :=
  world_of 200 200 listing_text (fun _ => one_page).

(** Collections [a] and [b]; the pagination of [a] fails, on its first
    page or on its second one. *)
Definition a_fails (replies_a : collectionReplies) : world :=
  world_of 200 200 listing2_text
    (fun i => match i with O => replies_a | _ => one_page end).

Definition three_records : list (list (string * value)) :=
  [ [("uri", VStr "/sensors/1")];
    [("uri", VStr "/sensors/2"); ("migrationDate", VStr "2016")];
    [("uri", VStr "/sensors/3")] ].

(** A header value whose bracket is not closed. *)
Definition unclosed_link : string := "rel=next; <https://asset.origin/sensors".

(** Two pages that both carry a continuation link. *)
Definition endless_pages : list transport :=
  [answer 200 [("link", next_link)] page1_text;
   answer 200 [("link", next_link)] page2_text].

(** The second [POST] is refused. *)
Definition second_post_refused : collectionReplies :=
  {| pages := [answer 200 [] page1_text];
     posts := [no_content; answer 500 [] EmptyString];
     together := fun _ => false;
     clock := tick |}.

(** The one page has no body. *)
Definition bodyless : collectionReplies :=
  {| pages := [no_content]; posts := [];
     together := fun _ => false; clock := tick |}.

(** The origin's identity provider answers 200 with a page of HTML. *)
Definition unparseable_token : world :=
  {| originReply := answer 200 [] "<html>";
     destinationReply := answer 200 [] token_text;
     destinationFirst := true;
     sameTurn := false;
     listingReply := answer 200 [] listing_text;
     repliesOf := fun _ => one_page |}.

(** The origin's identity provider answers 200 with an empty object. *)
Definition token_without_field : world :=
  {| originReply := answer 200 [] "{}";
     destinationReply := answer 200 [] token_text;
     destinationFirst := false;
     sameTurn := false;
     listingReply := answer 200 [] listing_text;
     repliesOf := fun _ => one_page |}.

(** The listing is refused. *)
Definition listing_refused : world :=
  {| originReply := answer 200 [] token_text;
     destinationReply := answer 200 [] token_text;
     destinationFirst := false;
     sameTurn := false;
     listingReply := answer 403 [] EmptyString;
     repliesOf := fun _ => one_page |}.

(** Both identity providers answer 401, and the two callbacks fire in the
    same turn of the event loop. *)
Definition both_unauthorized : world :=
  {| originReply := answer 401 [] EmptyString;
     destinationReply := answer 401 [] EmptyString;
     destinationFirst := false;
     sameTurn := true;
     listingReply := answer 200 [] listing_text;
     repliesOf := fun _ => one_page |}.

(** Both calls of [request] for a token throw. *)
Definition requests_throw : world :=
  {| originReply := Throws;
     destinationReply := Throws;
     destinationFirst := true;
     sameTurn := false;
     listingReply := answer 200 [] listing_text;
     repliesOf := fun _ => one_page |}.


(** The listing has no body. *)
Definition listing_empty : world :=
  world_of 200 200 EmptyString (fun _ => one_page).

(** A server with two pages of sensors: the first at [first_url], with a
    link to the second at [second_url]; every other URL is not found. *)
Definition first_url : string := "https://asset.origin/sensors?pageSize=1000".

Definition second_url : string :=
  "https://asset.origin/sensors?pageSize=1000&cursor=2".

Definition linked_server (url : string) : transport :=
  if String.eqb url first_url
  then answer 200 [("link", next_link)] page1_text
  else if String.eqb url second_url
       then answer 200 [] page2_text
       else answer 404 [] EmptyString.

End Sample.

(** ** Vocabulary of the statements *)

(** A header value whose first bracket pair encloses [u]. *)
Definition link_value (pre u post : string) : string :=
  (pre ++ String "<" (u ++ String ">" post))%string.

(** The decimal form of [n] starts with the digit 2. *)
Definition leading_digit_2 (n : Z) : Prop :=
  exists rest, Number_toString n = String "2" rest.

(** The value is an object with an [access_token] property. *)
Definition has_access_token (v : value) : bool :=
  match v with
  | VObj props =>
      match assoc "access_token" props with Some _ => true | None => false end
  | _ => false
  end.

(** The token service as the specification words it: a token comes back
    exactly on status 200 with a parseable body that holds an access token,
    and every other reply is a rejection. *)
Definition token_iff_access_token (JSON_parse : value -> option value)
    (t : transport) : Prop :=
  let p := settled (requestToken JSON_parse "uaa" "credentials" t) in
  ((exists v, p = Resolved v) <->
   (exists resp body v,
      t = Calls false (Some resp) body /\ statusCode resp = 200
      /\ JSON_parse body = Some v /\ has_access_token v = true))
  /\ ((forall v, p <> Resolved v) -> p = Rejected).

(** The record transport as the specification words it: it resolves only
    when a response is there and its status starts with 2. *)
Definition resolves_only_on_2xx (JSON_parse : value -> option value)
    (t : transport) : Prop :=
  forall r,
    settled (requestAssetData JSON_parse "url" "zone" "token" None VUndefined t)
    = Resolved r ->
    exists resp body,
      t = Calls false (Some resp) body /\ leading_digit_2 (statusCode resp).

(** The reply [t] is a page: a response whose status starts with 2 and
    whose body is the JSON text of the array [records]; [link] is its
    continuation link, [None] when it has none. *)
Definition serves (JSON_parse : value -> option value) (t : transport)
    (records : list value) (link : option string) : Prop :=
  exists resp b hs,
    t = Calls false (Some resp) b
    /\ leading_digit_2 (statusCode resp)
    /\ truthy b = true
    /\ JSON_parse b = Some (VArr records)
    /\ headers resp = Some hs
    /\ match link with
       | Some l => assoc "link" hs = Some l /\ l <> EmptyString
       | None => assoc "link" hs = None
       end.

(** A sequence of replies that are pages, all but the last one with a
    continuation link, and the records of each. *)
Inductive paginated (JSON_parse : value -> option value)
  : list transport -> list (list value) -> Prop :=
| paginated_last (t : transport) (records : list value) :
    serves JSON_parse t records None ->
    paginated JSON_parse [t] [records]
| paginated_more (t : transport) (records : list value) (link : string)
    (ts : list transport) (rs : list (list value)) :
    serves JSON_parse t records (Some link) ->
    paginated JSON_parse ts rs ->
    paginated JSON_parse (t :: ts) (records :: rs).

(** The number of calls of the record transport among some events. *)
Definition transport_calls (evs : list event) : nat :=
  length (filter is_asset_request evs).

(** [L / C] rounded up. *)
Definition ceil_div (L C : nat) : nat := ((L + C - 1) / C)%nat.

(** The records each with its migration timestamp: the [i]-th one gets
    what the [k + i]-th reading of the clock returns. *)
Fixpoint stamped (clock : nat -> Z) (k : nat)
    (records : list (list (string * value))) : list value :=
  match records with
  | [] => []
  | r :: rest =>
      VObj (set_prop "migrationDate" (VDate (clock k)) r)
      :: stamped clock (S k) rest
  end.

(** The same chunk by chunk. *)
Fixpoint stampedChunks (clock : nat -> Z) (k : nat)
    (chunks : list (list (list (string * value)))) : list (list value) :=
  match chunks with
  | [] => []
  | c :: rest =>
      stamped clock k c :: stampedChunks clock (k + length c) rest
  end.

(** [v] is the object [r] up to its [migrationDate]. *)
Definition untouched (r : list (string * value)) (v : value) : Prop :=
  exists props,
    v = VObj props
    /\ forall k, k <> "migrationDate" -> assoc k props = assoc k r.

(** [f] applied to every property but [migrationDate]. *)
Definition map_other (f : value -> value) (r : list (string * value))
  : list (string * value) :=
  map (fun kv => if String.eqb (fst kv) "migrationDate"
                 then kv else (fst kv, f (snd kv))) r.

Definition on_object (g : list (string * value) -> list (string * value))
    (v : value) : value :=
  match v with VObj props => VObj (g props) | _ => v end.

(** The replies lead through pages that carry a continuation link to a
    page that carries none: the pagination completes. *)
Fixpoint reaches_last_page (JSON_parse : value -> option value)
    (script : list transport) : bool :=
  match script with
  | [] => false
  | t :: rest =>
      match settled (requestAssetData JSON_parse EmptyString EmptyString
                       EmptyString None VUndefined t) with
      | Resolved response =>
          match continuation response with
          | Some _ => reaches_last_page JSON_parse rest
          | None => true
          end
      | _ => false
      end
  end.

(** The event belongs to pipeline [i]. *)
Definition has_label (i : nat) (x : option nat * event) : bool :=
  match fst x with Some j => Nat.eqb j i | None => false end.

(** The two token requests of a run. *)
Definition originTokenRequest (JSON_parse : value -> option value)
    (localConfig : config) (w : world) : call value :=
  requestToken JSON_parse (originalUaaUrl localConfig)
    (originalUaaCredentials localConfig) (originReply w).

Definition destinationTokenRequest (JSON_parse : value -> option value)
    (localConfig : config) (w : world) : call value :=
  requestToken JSON_parse (destinationUaaUrl localConfig)
    (destinationUaaCredentials localConfig) (destinationReply w).

(** ** Vocabulary of the further properties *)

(** The URLs of the calls of the record transport among some events. *)
Definition requested (evs : list event) : list string :=
  flat_map (fun e => match e with AssetRequest r => [url r] | _ => [] end) evs.

(** The counts that the progress lines of line 94 report. *)
Definition loaded (evs : list event) : list nat :=
  flat_map (fun e => match e with Log (Loaded n _) => [n] | _ => [] end) evs.

(** The running totals of the sizes of [rs], starting from [n]. *)
Fixpoint totals (n : nat) (rs : list (list value)) : list nat :=
  match rs with
  | [] => []
  | r :: rest => (n + length r)%nat :: totals (n + length r) rest
  end.

(** A sequence of replies that are pages, all but the last one with a
    continuation link, and the links in order. *)
Inductive linked (JSON_parse : value -> option value)
  : list transport -> list string -> Prop :=
| linked_last (t : transport) (records : list value) :
    serves JSON_parse t records None ->
    linked JSON_parse [t] []
| linked_more (t : transport) (records : list value) (link : string)
    (ts : list transport) (links : list string) :
    serves JSON_parse t records (Some link) ->
    linked JSON_parse ts links ->
    linked JSON_parse (t :: ts) (link :: links).

(** How the record transport settles on the reply [t]; its arguments play
    no part in that. *)
Definition reply_rejects (JSON_parse : value -> option value) (t : transport)
  : bool :=
  is_rejected (settled (requestAssetData JSON_parse EmptyString EmptyString
                          EmptyString None VUndefined t)).

Definition reply_resolves (JSON_parse : value -> option value) (t : transport)
  : bool :=
  is_resolved (settled (requestAssetData JSON_parse EmptyString EmptyString
                          EmptyString None VUndefined t)).

(** The test of line 65 is the test for a status from 200 to 299, on each
    of the [n] statuses from [lo] on. *)
Definition statuses_agree (lo : Z) (n : nat) : bool :=
  forallb
    (fun k =>
       Bool.eqb
         (not_2xx {| statusCode := lo + Z.of_nat k; headers := None |})
         (negb ((200 <=? lo + Z.of_nat k) && (lo + Z.of_nat k <=? 299))))
    (seq 0 n).

(** The values on which the assignment of line 155 throws. *)
Definition unstampable (v : value) : bool :=
  match v with
  | VObj _ | VArr _ | VDate _ => false
  | _ => true
  end.

(** The replies to the first [n] [POST]s of a collection; the network is
    silent once the scripted ones are used up. *)
Fixpoint first_replies (n : nat) (posts : list transport) : list transport :=
  match n with
  | O => []
  | S n' => hd Hangs posts :: first_replies n' (tl posts)
  end.

(** The two lines with which the upload of a collection can end. *)
Definition is_verdict (e : event) : bool :=
  match e with
  | Err ErrorPosting | Log (FinishedPosting _) => true
  | _ => false
  end.

(** The names of the properties of [r] once [migrationDate] is set. *)
Definition stamped_keys (r : list (string * value)) : list string :=
  match assoc "migrationDate" r with
  | Some _ => map fst r
  | None => map fst r ++ ["migrationDate"%string]
  end.

(** Where a call of the record transport goes: a [GET] to the origin zone
    with the origin token, no body and no force-write directive; a [POST] to
    the destination zone with the destination token, the force-write
    directive and an array as JSON body. *)
Definition routed (localConfig : config)
    (originalToken destinationToken : string) (e : event) : Prop :=
  match e with
  | AssetRequest r =>
      (method r = "GET"%string
       /\ zoneId r = originalAssetZoneId localConfig
       /\ authorization r = originalToken
       /\ forceWrite r = false /\ json r = false /\ body r = VNull)
      \/ (method r = "POST"%string
          /\ zoneId r = destinationAssetZoneId localConfig
          /\ authorization r = destinationToken
          /\ forceWrite r = true /\ json r = true
          /\ exists items, body r = VArr items)
  | _ => True
  end.

Definition is_token_request (e : event) : bool :=
  match e with TokenRequest _ _ => true | _ => false end.

(** What the callbacks of the two token requests and the handlers they
    queue do (lines 119-134 and 169-171). *)
Definition arrivals (JSON_parse : value -> option value)
    (ToString : value -> string) (localConfig : config) (w : world)
  : list event :=
  tokenCallbacks ToString w (originTokenRequest JSON_parse localConfig w)
    (destinationTokenRequest JSON_parse localConfig w).

(** The replies that the successive [GET]s of a paginator started at [url]
    get from a server which answers the [GET] of each URL [u] with
    [server u]; at most [n] of them, after which the network is silent. *)
Fixpoint served (JSON_parse : value -> option value)
    (server : string -> transport) (n : nat) (url : string)
  : list transport :=
  match n with
  | O => []
  | S n' =>
      server url
      :: match settled (requestAssetData JSON_parse url EmptyString
                          EmptyString None VUndefined (server url)) with
         | Resolved response =>
             match continuation response with
             | Some link => served JSON_parse server n' (nextUrl link)
             | None => []
             end
         | _ => []
         end
  end.

(** * Properties *)

(** ** Strings *)

Lemma string_app_assoc (a b c : string) :
  ((a ++ b) ++ c = a ++ (b ++ c))%string.
Proof. induction a as [|x a IH]; simpl; [reflexivity | now rewrite IH]. Qed.

Lemma string_app_length (a b : string) :
  String.length (a ++ b)%string = (String.length a + String.length b)%nat.
Proof. induction a as [|x a IH]; simpl; [reflexivity | now rewrite IH]. Qed.

Lemma indexOf_ge (s : string) (c : ascii) : -1 <= JsString.indexOf s c.
Proof.
  induction s as [|a s IH]; simpl; [lia|].
  destruct (Ascii.eqb a c); [lia|].
  destruct (JsString.indexOf s c <? 0) eqn:E; lia.
Qed.

Lemma mem_app (c : ascii) (a b : string) :
  JsString.mem c (a ++ b)%string = JsString.mem c a || JsString.mem c b.
Proof.
  induction a as [|x a IH]; simpl; [reflexivity|].
  rewrite IH. apply orb_assoc.
Qed.

Lemma indexOf_first (c : ascii) (a b : string) :
  JsString.mem c a = false ->
  JsString.indexOf (a ++ String c b)%string c = Z.of_nat (String.length a).
Proof.
  induction a as [|x a IH]; simpl.
  - intros _. rewrite Ascii.eqb_refl. reflexivity.
  - intros H. apply orb_false_iff in H. destruct H as [Hx Ha].
    rewrite Hx, (IH Ha).
    destruct (Z.of_nat (String.length a) <? 0) eqn:E; lia.
Qed.

(** [indexOf] is [0] exactly when the string starts with the character. *)
Lemma indexOf_zero (s : string) (c : ascii) :
  JsString.indexOf s c = 0 <-> exists rest, s = String c rest.
Proof.
  destruct s as [|a s]; simpl.
  - split; [lia | intros [r H]; discriminate].
  - destruct (Ascii.eqb a c) eqn:E.
    + apply Ascii.eqb_eq in E. subst a. split; [eauto | reflexivity].
    + pose proof (indexOf_ge s c) as Hge.
      split.
      * destruct (JsString.indexOf s c <? 0) eqn:L; lia.
      * intros [r Hr]. inversion Hr. subst a. rewrite Ascii.eqb_refl in E.
        discriminate.
Qed.

Lemma substring_skip (a b : string) (n : nat) :
  String.substring (String.length a) n (a ++ b)%string = String.substring 0 n b.
Proof. induction a as [|x a IH]; simpl; [reflexivity | exact IH]. Qed.

Lemma substring_chop (u r : string) :
  String.substring 0 (String.length u - 1) (u ++ r)%string = JsString.chop u.
Proof.
  induction u as [|x u IH]; simpl.
  - destruct r; reflexivity.
  - rewrite Nat.sub_0_r. destruct u as [|y u]; simpl.
    + reflexivity.
    + f_equal. simpl in IH. rewrite Nat.sub_0_r in IH. exact IH.
Qed.

Lemma chop_length (u : string) :
  String.length (JsString.chop u) = (String.length u - 1)%nat.
Proof.
  induction u as [|x u IH]; simpl; [reflexivity|].
  destruct u as [|y u]; simpl in *; [reflexivity | lia].
Qed.

Lemma after_first (c : ascii) (a b : string) :
  JsString.mem c a = false ->
  JsString.after c (a ++ String c b)%string = Some b.
Proof.
  induction a as [|x a IH]; simpl.
  - intros _. rewrite Ascii.eqb_refl. reflexivity.
  - intros H. apply orb_false_iff in H. destruct H as [Hx Ha].
    rewrite Hx. auto.
Qed.

Lemma before_first (c : ascii) (a b : string) :
  JsString.mem c a = false ->
  JsString.before c (a ++ String c b)%string = Some a.
Proof.
  induction a as [|x a IH]; simpl.
  - intros _. rewrite Ascii.eqb_refl. reflexivity.
  - intros H. apply orb_false_iff in H. destruct H as [Hx Ha].
    rewrite Hx, (IH Ha). reflexivity.
Qed.

Lemma between_brackets_link (pre u post : string) :
  JsString.mem "<" pre = false ->
  JsString.mem ">" u = false ->
  between_brackets (link_value pre u post) = Some u.
Proof.
  intros Hpre Hu. unfold between_brackets, link_value.
  rewrite (after_first _ _ _ Hpre). apply before_first, Hu.
Qed.

Lemma nextUrl_link (pre u post : string) :
  JsString.mem "<" pre = false ->
  JsString.mem ">" pre = false ->
  JsString.mem ">" u = false ->
  u <> EmptyString ->
  nextUrl (link_value pre u post) = JsString.chop u.
Proof.
  intros Hlt Hgt Hu Hne. unfold nextUrl, link_value.
  rewrite (indexOf_first "<" pre _ Hlt).
  replace (pre ++ String "<" (u ++ String ">" post))%string
    with ((pre ++ String "<" u) ++ String ">" post)%string
    by (rewrite string_app_assoc; reflexivity).
  rewrite (indexOf_first ">" (pre ++ String "<" u) post)
    by (rewrite mem_app; simpl; rewrite Hgt, Hu; reflexivity).
  unfold JsString.substring, JsString.clamp.
  rewrite !string_app_length. simpl String.length.
  assert (0 < String.length u)%nat
    by (destruct u; [congruence | simpl; lia]).
  set (p := String.length pre) in *. set (n := String.length u) in *.
  replace (Z.min _ _) with (Z.of_nat (p + 1)) by lia.
  replace (Z.max _ _ - Z.of_nat (p + 1)) with (Z.of_nat (n - 1)) by lia.
  rewrite !Nat2Z.id.
  replace ((pre ++ String "<" u) ++ String ">" post)%string
    with ((pre ++ "<") ++ u ++ String ">" post)%string
    by (rewrite !string_app_assoc; reflexivity).
  replace (p + 1)%nat with (String.length (pre ++ "<")%string)
    by (rewrite string_app_length; reflexivity).
  rewrite substring_skip. apply substring_chop.
Qed.

(** C1 (as the code has it): on a header value whose first bracket pair
    encloses a non-empty URL [u], the delimiter rule of the specification
    yields [u], whereas line 96 yields [u] without its last character, which
    is never [u]. *)
Theorem nextUrl_loses_last_character (pre u post : string) :
  JsString.mem "<" pre = false ->
  JsString.mem ">" pre = false ->
  JsString.mem ">" u = false ->
  u <> EmptyString ->
  between_brackets (link_value pre u post) = Some u
  /\ nextUrl (link_value pre u post) = JsString.chop u
  /\ nextUrl (link_value pre u post) <> u.
Proof.
  intros Hlt Hgt Hu Hne.
  rewrite (nextUrl_link pre u post Hlt Hgt Hu Hne).
  split; [apply between_brackets_link; assumption|].
  split; [reflexivity|].
  intros E. apply (f_equal String.length) in E. rewrite chop_length in E.
  destruct u; [congruence | simpl in E; lia].
Qed.


(** ** The token service *)

Section Token.

Variable JSON_parse : value -> option value.
Variables uaaUrl credentials : string.

(** When the promise of [requestToken] resolves and when it is
    rejected. *)
Lemma requestToken_outcomes (t : transport) :
  (forall v,
      settled (requestToken JSON_parse uaaUrl credentials t) = Resolved v
      <-> exists resp body,
          t = Calls false (Some resp) body /\ statusCode resp = 200
          /\ JSON_parse body = Some v)
  /\ (settled (requestToken JSON_parse uaaUrl credentials t) = Rejected
      <-> t = Throws
          \/ exists error resp body,
              t = Calls error resp body
              /\ (error = true \/ resp = None
                  \/ exists r, resp = Some r /\ statusCode r <> 200)).
Proof.
  split.
  - intros v. split.
    + destruct t as [| |error [r|] body]; simpl; try discriminate.
      * destruct error; simpl; try discriminate.
        destruct (statusCode r =? 200) eqn:E; try discriminate.
        destruct (JSON_parse body) eqn:P; simpl; try discriminate.
        intros H. inversion H. subst. apply Z.eqb_eq in E. eauto.
      * rewrite andb_false_r. discriminate.
    + intros (resp & body & -> & Hs & Hp). simpl.
      rewrite Hs, Hp. reflexivity.
  - split.
    + destruct t as [| |error [r|] body]; simpl; auto; try discriminate.
      * destruct error; simpl.
        { intros _. right. exists true, (Some r), body. auto. }
        destruct (statusCode r =? 200) eqn:E.
        { destruct (JSON_parse body); discriminate. }
        intros _. right. exists false, (Some r), body. split; [reflexivity|].
        right. right. exists r. split; [reflexivity|].
        apply Z.eqb_neq, E.
      * intros _. right. exists error, None, body. auto.
    + intros [-> | (error & resp & body & -> & H)]; [reflexivity|]. simpl.
      destruct H as [-> | [-> | (r & -> & Hr)]]; simpl.
      * reflexivity.
      * rewrite andb_false_r. reflexivity.
      * apply Z.eqb_neq in Hr. rewrite Hr, andb_false_r. reflexivity.
Qed.

(** C2 (as the code has it): [requestToken] resolves, with the parsed
    body whatever it holds, exactly when the callback reports no error, a
    response is there, its status is 200 and the body parses; it rejects
    whenever [request] throws, an error is reported, the response is absent
    or its status is not 200. *)
Theorem requestToken_settles (t : transport) :
  (forall v,
      settled (requestToken JSON_parse uaaUrl credentials t) = Resolved v
      <-> exists resp body,
          t = Calls false (Some resp) body /\ statusCode resp = 200
          /\ JSON_parse body = Some v)
  /\ (t = Throws
      \/ (exists error resp body,
             t = Calls error resp body
             /\ (error = true \/ resp = None
                 \/ exists r, resp = Some r /\ statusCode r <> 200)) ->
      settled (requestToken JSON_parse uaaUrl credentials t) = Rejected).
Proof.
  destruct (requestToken_outcomes t) as [Hres Hrej].
  split; [exact Hres | apply Hrej].
Qed.

(** A body that does not parse leaves the promise of a 200 reply pending:
    the exception of [JSON.parse] leaves the callback. *)
Lemma requestToken_unparseable (r : response) (body : value) :
  statusCode r = 200 ->
  JSON_parse body = None ->
  settled (requestToken JSON_parse uaaUrl credentials
             (Calls false (Some r) body)) = Pending
  /\ later (requestToken JSON_parse uaaUrl credentials
              (Calls false (Some r) body)) = [Throw].
Proof. intros Hs Hp. simpl. rewrite Hs, Hp. split; reflexivity. Qed.

End Token.

(** C2 (as stated) fails: a 200 reply whose body is the empty object
    resolves although it holds no access token, and a 200 reply whose body
    is no JSON text is not rejected. *)
Lemma token_without_access_token :
  ~ token_iff_access_token Sample.JSON_parse (Sample.answer 200 [] "{}")
  /\ ~ token_iff_access_token Sample.JSON_parse (Sample.answer 200 [] "<html>").
Proof.
  split.
  - intros [[H _] _].
    destruct H as (resp & body & v & E & _ & Hp & Ht);
      [exists (VObj []); reflexivity|].
    inversion E. subst. vm_compute in Hp. inversion Hp. subst.
    discriminate.
  - intros [_ H].
    assert (E : @Pending value = Rejected)
      by (apply H; intros v; discriminate).
    discriminate.
Qed.

(** ** The record transport *)

Lemma not_2xx_false (r : response) :
  not_2xx r = false <-> leading_digit_2 (statusCode r).
Proof.
  unfold not_2xx, leading_digit_2. rewrite negb_false_iff, Z.eqb_eq.
  apply indexOf_zero.
Qed.

Lemma not_2xx_true (r : response) :
  not_2xx r = true <-> ~ leading_digit_2 (statusCode r).
Proof.
  rewrite <- not_2xx_false. destruct (not_2xx r); split; congruence.
Qed.

Section Transport.

Variable JSON_parse : value -> option value.
Variables url zoneId token : string.
Variable method : option string.
Variable body : value.

Local Abbreviation call_with t :=
  (requestAssetData JSON_parse url zoneId token method body t).

(** When the promise of [requestAssetData] can resolve and when it is
    rejected. *)
Lemma requestAssetData_outcomes (t : transport) :
  (forall r,
      settled (call_with t) = Resolved r ->
      exists resp b,
        t = Calls false resp b
        /\ (resp = None
            \/ exists x, resp = Some x /\ leading_digit_2 (statusCode x)))
  /\ (settled (call_with t) = Rejected
      <-> t = Throws
          \/ exists error resp b,
              t = Calls error resp b
              /\ (error = true
                  \/ exists x,
                      resp = Some x /\ ~ leading_digit_2 (statusCode x)))
  /\ settled (call_with (Calls false None VUndefined))
     = Resolved {| reply_body := VNull; reply_headers := [] |}.
Proof.
  split; [|split; [|reflexivity]].
  - intros r. destruct t as [| |error resp b]; simpl; try discriminate.
    destruct error; simpl; try discriminate.
    destruct resp as [x|].
    + destruct (not_2xx x) eqn:E; try discriminate.
      intros _. exists (Some x), b. split; [reflexivity|]. right.
      exists x. split; [reflexivity|]. apply not_2xx_false, E.
    + intros _. exists None, b. auto.
  - split.
    + destruct t as [| |error resp b]; simpl; auto; try discriminate.
      destruct error; simpl.
      { intros _. right. exists true, resp, b. auto. }
      destruct resp as [x|].
      * destruct (not_2xx x) eqn:E.
        { intros _. right. exists false, (Some x), b.
          split; [reflexivity|]. right. exists x. split; [reflexivity|].
          apply not_2xx_true, E. }
        destruct (truthy b); [destruct (JSON_parse b)|]; discriminate.
      * destruct (truthy b); [destruct (JSON_parse b)|]; discriminate.
    + intros [-> | (error & resp & b & -> & H)]; [reflexivity|]. simpl.
      destruct H as [-> | (x & -> & Hx)]; [reflexivity|].
      apply not_2xx_true in Hx. rewrite Hx, orb_true_r. reflexivity.
Qed.

(** C3 (as the code has it): [requestAssetData] resolves only if the
    callback reports no error and the response is absent or has a status
    that starts with 2; it rejects, with no result, whenever [request]
    throws, an error is reported, or a response is there whose status does
    not start with 2; an absent response without an error or a body
    resolves, with a [null] body and no headers. *)
Theorem requestAssetData_settles (t : transport) :
  (forall r,
      settled (call_with t) = Resolved r ->
      exists resp b,
        t = Calls false resp b
        /\ (resp = None
            \/ exists x, resp = Some x /\ leading_digit_2 (statusCode x)))
  /\ (t = Throws
      \/ (exists error resp b,
             t = Calls error resp b
             /\ (error = true
                 \/ exists x,
                     resp = Some x /\ ~ leading_digit_2 (statusCode x))) ->
      settled (call_with t) = Rejected)
  /\ settled (call_with (Calls false None VUndefined))
     = Resolved {| reply_body := VNull; reply_headers := [] |}.
Proof.
  destruct (requestAssetData_outcomes t) as (Hres & Hrej & Habsent).
  split; [exact Hres | split; [apply Hrej | exact Habsent]].
Qed.

(** The statuses 200 to 299 start with 2. *)
Lemma success_statuses (n : Z) : 200 <= n <= 299 -> leading_digit_2 n.
Proof.
  intros H. unfold leading_digit_2.
  assert (E : exists k : nat, n = 200 + Z.of_nat k /\ (k < 100)%nat)
    by (exists (Z.to_nat (n - 200)); lia).
  destruct E as (k & -> & Hk).
  do 100 (destruct k as [|k]; [vm_compute; eauto|]). lia.
Qed.

End Transport.

(** C3 (as stated) fails: with no error and no response the call
    resolves. *)
Lemma resolves_without_response :
  ~ resolves_only_on_2xx Sample.JSON_parse (Calls false None VUndefined).
Proof.
  intros H. destruct (H _ eq_refl) as (resp & b & E & _). discriminate.
Qed.

(** ** The paginator *)

Section Paginator.

Variable JSON_parse : value -> option value.
Variables zoneId token : string.
Variable target : value.

Local Abbreviation fetch url instances script :=
  (getDomainObjectInstances JSON_parse url zoneId token instances target
     script).

Lemma transport_calls_app (a b : list event) :
  transport_calls (a ++ b) = (transport_calls a + transport_calls b)%nat.
Proof.
  unfold transport_calls. rewrite filter_app. apply length_app.
Qed.

(** What a page makes of a [GET]. *)
Lemma requestAssetData_serves (url : string) (t : transport)
    (records : list value) (link : option string) :
  serves JSON_parse t records link ->
  exists r hs,
    requestAssetData JSON_parse url zoneId token None VUndefined t
    = {| issued := [AssetRequest r]; later := [];
         settled := Resolved {| reply_body := VArr records;
                                reply_headers := hs |} |}
    /\ continuation {| reply_body := VArr records; reply_headers := hs |}
       = link.
Proof.
  intros (resp & b & hs & -> & H2 & Hb & Hp & Hh & Hl).
  apply not_2xx_false in H2. simpl. rewrite H2, Hb, Hp, Hh.
  eexists _, hs. split; [reflexivity|].
  unfold continuation. simpl. destruct link as [l|].
  - destruct Hl as [-> Hne]. destruct l; [congruence | reflexivity].
  - rewrite Hl. reflexivity.
Qed.

(** X21: when the replies to the successive [GET]s, in the order of the
    calls and whatever URL each call asks for, are [N] pages, all but the
    last with a continuation link, the paginator resolves with the instances
    it was given followed by the records of the pages in page order, after
    exactly [N] calls of the transport, whatever further replies are at
    hand. *)
Theorem getDomainObjectInstances_pages (script : list transport)
    (records : list (list value)) :
  paginated JSON_parse script records ->
  forall (url : string) (instances : list value) (rest : list transport),
    snd (fetch url instances (script ++ rest))
    = Resolved (instances ++ concat records)
    /\ transport_calls (fst (fetch url instances (script ++ rest)))
       = length records
    /\ length script = length records.
Proof.
  induction 1 as [t recs Hs | t recs link ts rs Hs Hp IH];
    intros url instances rest.
  - destruct (requestAssetData_serves url t recs None Hs)
      as (r & hs & E & Hc).
    simpl. rewrite E. simpl. rewrite Hc. simpl.
    rewrite app_nil_r. auto.
  - destruct (requestAssetData_serves url t recs (Some link) Hs)
      as (r & hs & E & Hc).
    simpl. rewrite E. simpl. rewrite Hc.
    specialize (IH (nextUrl link) (instances ++ recs) rest).
    destruct (fetch (nextUrl link) (instances ++ recs) (ts ++ rest))
      as [evs p].
    simpl in *. destruct IH as (-> & Hn & Hl).
    rewrite <- app_assoc. split; [reflexivity|].
    change (AssetRequest r :: Log (Loaded (length (instances ++ recs)) target)
              :: evs)
      with ([AssetRequest r; Log (Loaded (length (instances ++ recs)) target)]
              ++ evs).
    rewrite transport_calls_app, Hn, Hl. auto.
Qed.

(** The paginator only ever adds to the instances it was given. *)
Lemma getDomainObjectInstances_extends (script : list transport) :
  forall (url : string) (instances fullList : list value),
    snd (fetch url instances script) = Resolved fullList ->
    exists more, fullList = instances ++ more.
Proof.
  induction script as [|t rest IH]; intros url instances fullList;
    simpl; [discriminate|].
  destruct (settled _) as [response| |]; simpl; try discriminate.
  destruct (continuation response) as [link|]; simpl.
  - specialize (IH (nextUrl link)
                  (Array_concat instances (reply_body response))).
    destruct (fetch _ _ rest) as [evs p]. simpl in *.
    destruct p as [l| |]; try discriminate.
    intros H. inversion H. subst l.
    destruct (IH _ eq_refl) as [more ->].
    destruct (reply_body response); simpl; rewrite <- app_assoc; eauto.
  - intros H. inversion H.
    destruct (reply_body response); simpl; eauto.
Qed.

(** C10: a successful reply with no body makes the transport resolve
    with a [null] body; the paginator adds that [null] as one element, so
    that it is the list it resolves with when the reply is the last page,
    and an entry of whatever list it resolves with otherwise. *)
Theorem getDomainObjectInstances_null_entry (url : string)
    (instances : list value) (resp : response) (b : value)
    (rest : list transport) :
  leading_digit_2 (statusCode resp) ->
  truthy b = false ->
  (exists hs,
      settled (requestAssetData JSON_parse url zoneId token None VUndefined
                 (Calls false (Some resp) b))
      = Resolved {| reply_body := VNull; reply_headers := hs |})
  /\ (match headers resp with
      | Some hs => assoc "link" hs
      | None => None
      end = None ->
      snd (fetch url instances (Calls false (Some resp) b :: rest))
      = Resolved (instances ++ [VNull]))
  /\ (forall fullList,
         snd (fetch url instances (Calls false (Some resp) b :: rest))
         = Resolved fullList ->
         exists more, fullList = instances ++ VNull :: more).
Proof.
  intros H2 Hb. apply not_2xx_false in H2.
  split; [|split].
  - simpl. rewrite H2, Hb. eexists. reflexivity.
  - intros Hl. simpl. rewrite H2, Hb. simpl.
    unfold continuation. simpl.
    destruct (headers resp) as [hs|]; simpl; [rewrite Hl|]; reflexivity.
  - intros fullList. simpl. rewrite H2, Hb. simpl.
    destruct (continuation _) as [link|]; simpl.
    + pose proof (getDomainObjectInstances_extends rest (nextUrl link)
                    (instances ++ [VNull])) as Hext.
      destruct (fetch _ _ rest) as [evs p]. simpl in *.
      destruct p as [l| |]; try discriminate.
      intros H. inversion H. subst l.
      destruct (Hext _ eq_refl) as [more ->].
      exists more. rewrite <- app_assoc. reflexivity.
    + intros H. inversion H. exists []. reflexivity.
Qed.

End Paginator.

(** ** Chunks *)

Section Chunks.

Context {A : Type}.

Lemma chunk_concat (size : nat) (l : list A) :
  (0 < size)%nat -> concat (chunk size l) = l.
Proof.
  funelim (chunk size l); simp chunk; intros Hs; [lia | reflexivity |].
  simpl. rewrite H by lia. now rewrite firstn_skipn.
Qed.

Lemma chunk_bound (size : nat) (l : list A) :
  Forall (fun c => (length c <= size)%nat) (chunk size l).
Proof.
  funelim (chunk size l); simp chunk; constructor; [|assumption].
  simpl. pose proof (firstn_le_length n xs). lia.
Qed.

Lemma chunk_length (size : nat) (l : list A) :
  (0 < size)%nat -> length (chunk size l) = ceil_div (length l) size.
Proof.
  unfold ceil_div.
  funelim (chunk size l); simp chunk; intros Hs; [lia | |].
  - cbn [length]. symmetry. apply Nat.div_small. lia.
  - cbn [length]. rewrite H by lia. rewrite length_skipn.
    replace (S (length xs) + S n - 1)%nat with (length xs + 1 * S n)%nat
      by lia.
    rewrite Nat.div_add by lia.
    replace (length xs - n + S n - 1)%nat with (length xs - n + n)%nat
      by lia.
    destruct (Nat.le_gt_cases n (length xs)) as [Hle | Hgt].
    + replace (length xs - n + n)%nat with (length xs) by lia. lia.
    + replace (length xs - n + n)%nat with n by lia.
      rewrite !Nat.div_small by lia. reflexivity.
Qed.

(** The [j]-th chunk is the slice that starts at [j * size]. *)
Lemma chunk_nth (size : nat) (l : list A) :
  forall j : nat,
    (0 < size)%nat ->
    nth j (chunk size l) [] = firstn size (skipn (j * size) l).
Proof.
  funelim (chunk size l); simp chunk; intros j Hs; [lia | |].
  - rewrite skipn_nil, firstn_nil. destruct j; reflexivity.
  - destruct j as [|j]; [reflexivity|].
    simpl nth. rewrite H by lia.
    change (S j * S n)%nat with (S (n + j * S n)).
    simpl skipn. f_equal. rewrite skipn_skipn. f_equal. lia.
Qed.

End Chunks.

Lemma chunk_map {A B : Type} (g : A -> B) (size : nat) (l : list A) :
  chunk size (map g l) = map (map g) (chunk size l).
Proof.
  funelim (chunk size l); simpl map; simp chunk; [reflexivity..|].
  rewrite firstn_map, skipn_map, H. reflexivity.
Qed.

(** [ceil_div L C] is the least number of chunks of [C] that hold [L]. *)
Lemma ceil_div_spec (L C : nat) :
  (0 < C)%nat ->
  (L <= ceil_div L C * C)%nat /\ (ceil_div L C * C < L + C)%nat.
Proof.
  intros HC. unfold ceil_div.
  pose proof (Nat.div_mod_eq (L + C - 1) C) as E.
  pose proof (Nat.mod_upper_bound (L + C - 1) C ltac:(lia)) as Hm.
  nia.
Qed.

(** ** Stamping *)

Lemma assoc_set_prop_other {A : Type} (k m : string) (v : A)
    (l : list (string * A)) :
  k <> m -> assoc k (set_prop m v l) = assoc k l.
Proof.
  intros Hk. induction l as [|[k' a] l IH]; simpl.
  - destruct (String.eqb m k) eqn:E; [|reflexivity].
    apply String.eqb_eq in E. congruence.
  - destruct (String.eqb k' m) eqn:E; simpl.
    + apply String.eqb_eq in E. subst k'.
      destruct (String.eqb m k) eqn:E'; [|reflexivity].
      apply String.eqb_eq in E'. congruence.
    + rewrite IH. reflexivity.
Qed.

Lemma assoc_set_prop_same {A : Type} (m : string) (v : A)
    (l : list (string * A)) :
  assoc m (set_prop m v l) = Some v.
Proof.
  induction l as [|[k' a] l IH]; simpl.
  - now rewrite String.eqb_refl.
  - destruct (String.eqb k' m) eqn:E; simpl; now rewrite E.
Qed.

Lemma set_prop_map_other (f : value -> value) (v : value)
    (r : list (string * value)) :
  set_prop "migrationDate" v (map_other f r)
  = map_other f (set_prop "migrationDate" v r).
Proof.
  induction r as [|[k a] r IH]; [reflexivity|].
  unfold map_other in *. simpl.
  destruct (String.eqb k "migrationDate") eqn:E; simpl; rewrite E; simpl.
  - reflexivity.
  - rewrite IH. reflexivity.
Qed.

Section Stamped.

Variable clock : nat -> Z.

Lemma stamped_length (rs : list (list (string * value))) :
  forall k, length (stamped clock k rs) = length rs.
Proof. induction rs as [|r rs IH]; intros k; simpl; auto. Qed.

Lemma stamped_firstn (n : nat) :
  forall rs k, firstn n (stamped clock k rs) = stamped clock k (firstn n rs).
Proof.
  induction n as [|n IH]; intros [|r rs] k; simpl; try reflexivity.
  now rewrite IH.
Qed.

Lemma stamped_skipn (n : nat) :
  forall rs k,
    skipn n (stamped clock k rs)
    = stamped clock (k + length (firstn n rs)) (skipn n rs).
Proof.
  induction n as [|n IH]; intros [|r rs] k; simpl; try reflexivity.
  - now rewrite Nat.add_0_r.
  - rewrite IH. f_equal. lia.
Qed.

Lemma stampedChunks_chunk (size : nat) (rs : list (list (string * value))) :
  forall k,
    stampedChunks clock k (chunk size rs) = chunk size (stamped clock k rs).
Proof.
  remember (length rs) as n eqn:Hn.
  assert (Hle : (length rs <= n)%nat) by lia. clear Hn. revert rs Hle.
  induction n as [|n IH]; intros rs Hle k.
  - destruct rs; [|simpl in Hle; lia].
    destruct size; simpl stamped; simp chunk; reflexivity.
  - destruct size as [|m]; [simp chunk; reflexivity|].
    destruct rs as [|r rs]; simpl stamped; simp chunk; [reflexivity|].
    simpl in *. rewrite IH by (rewrite length_skipn; lia).
    rewrite stamped_firstn, stamped_skipn. do 3 f_equal. lia.
Qed.

Lemma stamped_untouched (rs : list (list (string * value))) :
  forall k, Forall2 untouched rs (stamped clock k rs).
Proof.
  induction rs as [|r rs IH]; intros k; simpl; constructor; [|apply IH].
  eexists. split; [reflexivity|].
  intros key Hkey. now apply assoc_set_prop_other.
Qed.

Lemma stamped_map_other (f : value -> value)
    (rs : list (list (string * value))) :
  forall k,
    stamped clock k (map (map_other f) rs)
    = map (on_object (map_other f)) (stamped clock k rs).
Proof.
  induction rs as [|r rs IH]; intros k; simpl; [reflexivity|].
  now rewrite set_prop_map_other, IH.
Qed.

End Stamped.

(** ** The upload phase *)

Lemma filter_nil_Forall {A : Type} (f : A -> bool) (l : list A) :
  filter f l = [] <-> Forall (fun x => f x = false) l.
Proof.
  induction l as [|x l IH]; simpl.
  - split; constructor.
  - destruct (f x) eqn:E; split.
    + discriminate.
    + intros H. inversion H. congruence.
    + intros H. constructor; [exact E | now apply IH].
    + intros H. inversion H. now apply IH.
Qed.

Section Upload.

Variable JSON_parse : value -> option value.
Variable ToString : value -> string.
Variable localConfig : config.
Variable destinationToken : string.
Variable collection : value.

Local Abbreviation upload size w instances :=
  (postInstances JSON_parse ToString localConfig size destinationToken
     collection w instances).

Local Abbreviation loop clock k chunks posts :=
  (postChunks JSON_parse ToString localConfig destinationToken collection
     clock k chunks posts).

Lemma stampAll_objects (clock : nat -> Z)
    (rs : list (list (string * value))) :
  forall k, stampAll clock k (map VObj rs) = Some (stamped clock k rs).
Proof.
  induction rs as [|r rs IH]; intros k; simpl; [reflexivity|].
  now rewrite IH.
Qed.

(** The callback of the transport issues no request. *)
Lemma requestAssetData_later (url zoneId token : string)
    (method : option string) (body : value) (t : transport) :
  Forall (fun e => e = Throw)
    (later (requestAssetData JSON_parse url zoneId token method body t)).
Proof.
  destruct t as [| |error resp b]; simpl; auto.
  destruct (error || _); simpl; auto.
  destruct (truthy b); simpl; auto.
  destruct (JSON_parse b); simpl; auto.
Qed.

Lemma requestAssetData_issued (url zoneId token : string)
    (method : option string) (body : value) (t : transport) :
  issued (requestAssetData JSON_parse url zoneId token method body t)
  = [AssetRequest (assetOptions url zoneId token method body)].
Proof.
  destruct t as [| |error resp b]; simpl; auto.
  destruct (error || _); simpl; auto.
  destruct (truthy b); simpl; auto.
  destruct (JSON_parse b); simpl; auto.
Qed.

Lemma quiet_later (calls : list (call reply)) :
  Forall (fun c => Forall (fun e => e = Throw) (later c)) calls ->
  Forall (fun e => e = Throw) (flat_map later calls).
Proof.
  induction 1 as [|c calls Hc _ IH]; simpl; [constructor|].
  apply Forall_app. auto.
Qed.

Lemma throws_post_nothing (evs : list event) :
  Forall (fun e => e = Throw) evs ->
  flat_map posted evs = [] /\ filter is_post evs = []
  /\ filter is_get evs = [].
Proof.
  induction 1 as [|e evs -> _ IH]; simpl; auto.
Qed.

(** The loop over chunks of objects runs to its end and posts each chunk
    stamped. *)
Lemma postChunks_objects (clock : nat -> Z)
    (css : list (list (list (string * value)))) :
  forall (k : nat) (posts : list transport),
    snd (loop clock k (map (map VObj) css) posts) = true
    /\ flat_map posted (fst (fst (loop clock k (map (map VObj) css) posts)))
       = stampedChunks clock k css
    /\ length (filter is_post
                 (fst (fst (loop clock k (map (map VObj) css) posts))))
       = length css
    /\ Forall (fun c => Forall (fun e => e = Throw) (later c))
         (snd (fst (loop clock k (map (map VObj) css) posts))).
Proof.
  induction css as [|cs css IH]; intros k posts; simpl.
  - repeat split; constructor.
  - rewrite stampAll_objects, length_map.
    specialize (IH (k + length cs)%nat (tl posts)).
    destruct (loop clock (k + length cs)%nat (map (map VObj) css) (tl posts))
      as [[evs calls] done].
    simpl in *. destruct IH as (-> & Hb & Hn & Hq).
    rewrite requestAssetData_issued. simpl.
    rewrite Hb, Hn. repeat split.
    constructor; [apply requestAssetData_later | exact Hq].
Qed.

(** Whatever the instances are, the loop issues no [GET]. *)
Lemma postChunks_no_get (clock : nat -> Z) (chunks : list (list value)) :
  forall (k : nat) (posts : list transport),
    filter is_get (fst (fst (loop clock k chunks posts))) = []
    /\ Forall (fun c => Forall (fun e => e = Throw) (later c))
         (snd (fst (loop clock k chunks posts))).
Proof.
  induction chunks as [|c chunks IH]; intros k posts; simpl.
  - split; constructor.
  - destruct (stampAll clock k c) as [stamped_c|]; simpl;
      [|split; constructor].
    specialize (IH (k + length c)%nat (tl posts)).
    destruct (loop clock (k + length c)%nat chunks (tl posts))
      as [[evs calls] done].
    simpl in *. destruct IH as [Hg Hq].
    rewrite requestAssetData_issued. simpl. split; [exact Hg|].
    constructor; [apply requestAssetData_later | exact Hq].
Qed.

Lemma silent_post_nothing (evs : list event) :
  Forall (fun e => is_asset_request e = false) evs ->
  flat_map posted evs = [] /\ filter is_post evs = []
  /\ filter is_get evs = [].
Proof.
  induction 1 as [|e evs He _ IH]; simpl; auto.
  destruct e; try discriminate; simpl; auto.
Qed.

(** The callbacks of the [POST]s and the rejection handler of
    [Promise.all] leave exceptions and the error line. *)
Lemma postCallbacks_events (tg : nat -> bool) (calls : list (call reply)) :
  Forall (fun c => Forall (fun e => e = Throw) (later c)) calls ->
  forall k queued reported,
    Forall (fun e => e = Throw \/ e = Err ErrorPosting)
      (postCallbacks tg k queued reported calls).
Proof.
  induction 1 as [|c calls Hc _ IH]; intros k q r; simpl.
  - destruct q; [apply Forall_cons; [now right | apply Forall_nil]
                | apply Forall_nil].
  - apply Forall_app. split.
    + eapply Forall_impl; [|exact Hc]. intros e ->. now left.
    + destruct (tg k); [apply IH|].
      apply Forall_app. split; [|apply IH].
      destruct (q || _); [apply Forall_cons; [now right | apply Forall_nil]
                         | apply Forall_nil].
Qed.

(** The error line is printed once when a [POST] is rejected, and not at
    all otherwise. *)
Lemma postCallbacks_verdict (tg : nat -> bool) (calls : list (call reply)) :
  Forall (fun c => Forall (fun e => e = Throw) (later c)) calls ->
  forall k queued reported,
    queued && reported = false ->
    filter is_verdict (postCallbacks tg k queued reported calls)
    = if queued
         || (negb reported
             && existsb (fun c => is_rejected (settled c)) calls)
      then [Err ErrorPosting] else [].
Proof.
  induction 1 as [|c calls Hc _ IH]; intros k q r Hqr; simpl.
  - destruct q, r; try discriminate; reflexivity.
  - rewrite filter_app.
    rewrite (proj2 (filter_nil_Forall is_verdict (later c)))
      by (eapply Forall_impl; [|exact Hc]; now intros e ->).
    simpl. destruct (tg k).
    + rewrite IH
        by (destruct q, r, (is_rejected (settled c));
            try discriminate; reflexivity).
      destruct q, r, (is_rejected (settled c)), (existsb _ calls);
        try discriminate; reflexivity.
    + rewrite filter_app, IH by reflexivity.
      destruct q, r, (is_rejected (settled c)), (existsb _ calls);
        try discriminate; reflexivity.
Qed.

Lemma postCallbacks_quiet (tg : nat -> bool) (calls : list (call reply)) :
  Forall (fun c => Forall (fun e => e = Throw) (later c)) calls ->
  existsb (fun c => is_rejected (settled c)) calls = false ->
  forall k reported,
    Forall (fun e => e = Throw) (postCallbacks tg k false reported calls).
Proof.
  induction 1 as [|c calls Hc _ IH]; intros Hno k r; simpl;
    [apply Forall_nil|].
  simpl in Hno. apply orb_false_iff in Hno. destruct Hno as [Hrc Hno].
  rewrite Hrc. simpl. apply Forall_app. split; [exact Hc|].
  destruct (tg k); [now apply IH|]. simpl.
  rewrite orb_false_r. now apply IH.
Qed.

Lemma rejected_not_all_resolved (calls : list (call reply)) :
  existsb (fun c => is_rejected (settled c)) calls = true ->
  forallb (fun c => is_resolved (settled c)) calls = false.
Proof.
  induction calls as [|c calls IH]; simpl; [discriminate|].
  destruct (settled c); simpl; auto.
Qed.

(** A [POST] that throws gives a rejected promise. *)
Lemma postChunks_thrown (clock : nat -> Z) (chunks : list (list value)) :
  forall (k : nat) (posts : list transport),
    existsb synchronous
      (firstn (length (snd (fst (loop clock k chunks posts)))) posts)
    = true ->
    existsb (fun c => is_rejected (settled c))
      (snd (fst (loop clock k chunks posts))) = true.
Proof.
  induction chunks as [|c chunks IH]; intros k posts; simpl.
  - destruct posts; discriminate.
  - destruct (stampAll clock k c) as [stamped_c|]; simpl;
      [|destruct posts; discriminate].
    specialize (IH (k + length c)%nat (tl posts)).
    destruct (loop clock (k + length c)%nat chunks (tl posts))
      as [[evs calls] done].
    simpl in *. destruct posts as [|t posts]; simpl in *.
    + rewrite firstn_nil in IH. exact IH.
    + destruct t; simpl; auto;
        intros Hx; rewrite (IH Hx); apply orb_true_r.
Qed.

(** What is left of the upload once the loop over the chunks is over. *)
Lemma verdict_posts_nothing (n : nat) (tg : nat -> bool) (thrown : bool)
    (calls : list (call reply)) (done : bool) :
  Forall (fun c => Forall (fun e => e = Throw) (later c)) calls ->
  Forall (fun e => is_asset_request e = false)
    (if done
     then (if thrown then [Err ErrorPosting] else [])
          ++ postCallbacks tg 0 false thrown calls
          ++ (if forallb (fun c => is_resolved (settled c)) calls
              then [Log (FinishedPosting n)]
              else [])
     else flat_map later calls).
Proof.
  intros Hq. destruct done.
  - apply Forall_app. split;
      [destruct thrown; [apply Forall_cons; [reflexivity | apply Forall_nil]
                        | apply Forall_nil]|].
    apply Forall_app. split.
    + eapply Forall_impl; [|apply (postCallbacks_events tg calls Hq)].
      now intros e [-> | ->].
    + destruct (forallb _ calls);
        [apply Forall_cons; [reflexivity | apply Forall_nil]
        | apply Forall_nil].
  - eapply Forall_impl; [|apply (quiet_later calls Hq)]. now intros e ->.
Qed.

(** The verdict of [Promise.all]: the error line when a promise is
    rejected, the line of success when all are resolved. *)
Lemma verdict_once (n : nat) (tg : nat -> bool) (thrown : bool)
    (calls : list (call reply)) :
  Forall (fun c => Forall (fun e => e = Throw) (later c)) calls ->
  (thrown = true ->
   existsb (fun c => is_rejected (settled c)) calls = true) ->
  filter is_verdict
    ((if thrown then [Err ErrorPosting] else [])
     ++ postCallbacks tg 0 false thrown calls
     ++ (if forallb (fun c => is_resolved (settled c)) calls
         then [Log (FinishedPosting n)]
         else []))
  = if existsb (fun c => is_rejected (settled c)) calls
    then [Err ErrorPosting]
    else if forallb (fun c => is_resolved (settled c)) calls
         then [Log (FinishedPosting n)]
         else [].
Proof.
  intros Hq Ht. rewrite !filter_app.
  rewrite (postCallbacks_verdict tg calls Hq) by reflexivity.
  pose proof (rejected_not_all_resolved calls) as Hr.
  destruct thrown, (existsb _ calls), (forallb _ calls); simpl;
    try reflexivity;
    try (specialize (Hr eq_refl); discriminate);
    specialize (Ht eq_refl); discriminate.
Qed.

(** What the upload of objects posts: the chunks of the stamped list. *)
Lemma postInstances_posted (size : nat) (w : collectionReplies)
    (records : list (list (string * value))) :
  flat_map posted (upload size w (map VObj records))
  = chunk size (stamped (clock w) 0 records)
  /\ length (filter is_post (upload size w (map VObj records)))
     = length (chunk size records).
Proof.
  unfold postInstances. rewrite chunk_map.
  pose proof (postChunks_objects (clock w) (chunk size records) 0%nat
                (posts w)) as H.
  destruct (loop (clock w) 0%nat (map (map VObj) (chunk size records))
              (posts w)) as [[evs calls] done].
  simpl in H. destruct H as (-> & Hb & Hn & Hq).
  pose proof (verdict_posts_nothing (length (map VObj records))
                (together w)
                (existsb synchronous (firstn (length calls) (posts w)))
                calls true Hq) as Hv.
  cbv beta iota in Hv.
  match goal with |- context [evs ++ ?t] => set (tail := t) in * end.
  destruct (silent_post_nothing tail Hv) as (V1 & V2 & _).
  clearbody tail.
  rewrite !flat_map_app, !filter_app, !length_app.
  rewrite V1, V2. simpl. rewrite Hb, Hn.
  rewrite !app_nil_r, stampedChunks_chunk. split; [reflexivity | lia].
Qed.

(** C7: for a chunk size above zero, the upload of [L] records issues
    [ceil(L / size)] [POST]s; what they carry is the stamped list cut in
    chunks, so the [j]-th one is the slice of at most [size] records that
    starts at [j * size], in source order, and together they are the input
    records each with its migration timestamp. *)
Theorem postInstances_chunks (size : nat) (w : collectionReplies)
    (records : list (list (string * value))) :
  (0 < size)%nat ->
  length (filter is_post (upload size w (map VObj records)))
  = ceil_div (length records) size
  /\ length (flat_map posted (upload size w (map VObj records)))
     = ceil_div (length records) size
  /\ (forall j,
         nth j (flat_map posted (upload size w (map VObj records))) []
         = firstn size (skipn (j * size) (stamped (clock w) 0 records)))
  /\ Forall (fun c => (length c <= size)%nat)
       (flat_map posted (upload size w (map VObj records)))
  /\ concat (flat_map posted (upload size w (map VObj records)))
     = stamped (clock w) 0 records.
Proof.
  intros Hs. destruct (postInstances_posted size w records) as [-> ->].
  rewrite !chunk_length, stamped_length by assumption.
  repeat split.
  - intros j. now apply chunk_nth.
  - apply chunk_bound.
  - now apply chunk_concat.
Qed.

(** C9: the records the upload posts are the input records up to their
    [migrationDate]: every other property reads as before, and rewriting
    the other properties of the input rewrites those of the output and
    changes nothing else. *)
Theorem postInstances_frame (size : nat) (w : collectionReplies)
    (records : list (list (string * value))) :
  (0 < size)%nat ->
  Forall2 untouched records
    (concat (flat_map posted (upload size w (map VObj records))))
  /\ forall f : value -> value,
      flat_map posted
        (upload size w (map VObj (map (map_other f) records)))
      = map (map (on_object (map_other f)))
          (flat_map posted (upload size w (map VObj records))).
Proof.
  intros Hs. split.
  - destruct (postInstances_posted size w records) as [-> _].
    rewrite chunk_concat by assumption. apply stamped_untouched.
  - intros f.
    destruct (postInstances_posted size w records) as [-> _].
    destruct (postInstances_posted size w (map (map_other f) records))
      as [-> _].
    now rewrite stamped_map_other, chunk_map.
Qed.

(** The upload phase issues no [GET], whatever the instances are. *)
Lemma postInstances_no_get (size : nat) (w : collectionReplies)
    (instances : list value) :
  filter is_get (upload size w instances) = [].
Proof.
  unfold postInstances.
  pose proof (postChunks_no_get (clock w) (chunk size instances) 0%nat
                (posts w)) as H.
  destruct (loop (clock w) 0%nat (chunk size instances) (posts w))
    as [[evs calls] done].
  simpl in H. destruct H as [Hg Hq].
  destruct (silent_post_nothing _
              (verdict_posts_nothing (length instances) (together w)
                 (existsb synchronous (firstn (length calls) (posts w)))
                 calls done Hq))
    as (_ & _ & V).
  rewrite 2!filter_app. rewrite V. simpl. rewrite Hg. reflexivity.
Qed.

End Upload.

(** ** Schedules *)

(** When [x] is not in [a], a split of [a ++ b] at [x] is a split of [b]. *)
Lemma split_past {A : Type} (x : A) (a : list A) :
  forall l1 l2 b,
    l1 ++ x :: l2 = a ++ b -> ~ In x a ->
    exists b1, b = b1 ++ x :: l2.
Proof.
  induction a as [|y a IH]; intros l1 l2 b E Hx; simpl in E.
  - exists l1. now symmetry.
  - destruct l1 as [|z l1]; simpl in E; inversion E; subst.
    + exfalso. apply Hx. now left.
    + apply (IH l1 l2 b); [assumption|]. intros Hin. apply Hx. now right.
Qed.

Section Interleaving.

Context {A : Type}.

Lemma interleaving_filter (f : A -> bool) (ls : list (list A)) (s : list A) :
  interleaving ls s -> interleaving (map (filter f) ls) (filter f s).
Proof.
  induction 1 as [ls H | before x l after t _ IH].
  - simpl. constructor. apply Forall_map.
    eapply Forall_impl; [|exact H]. intros l ->. reflexivity.
  - rewrite map_app in *. simpl in *.
    destruct (f x); [constructor|]; exact IH.
Qed.

(** An interleaving of lists that are all empty but the [i]-th is the
    [i]-th. *)
Lemma interleaving_single (i : nat) (ls : list (list A)) (s : list A) :
  interleaving ls s ->
  (forall j, j <> i -> nth j ls [] = []) ->
  s = nth i ls [].
Proof.
  induction 1 as [ls H | before x l after t _ IH]; intros Hothers.
  - destruct (Nat.lt_ge_cases i (length ls)) as [Hlt | Hge].
    + rewrite Forall_forall in H. symmetry. apply H, nth_In, Hlt.
    + now rewrite nth_overflow.
  - assert (Hi : i = length before).
    { destruct (Nat.eq_dec (length before) i) as [E | E]; [now symmetry|].
      specialize (Hothers _ E). rewrite nth_middle in Hothers.
      discriminate. }
    subst i. rewrite nth_middle. f_equal.
    rewrite IH; [now rewrite nth_middle|].
    intros j Hj. specialize (Hothers j Hj).
    destruct (Nat.lt_ge_cases j (length before)) as [Hlt | Hge].
    + rewrite app_nth1 in * by assumption. exact Hothers.
    + rewrite app_nth2 in * by assumption.
      destruct (j - length before)%nat as [|m] eqn:Em; [lia | exact Hothers].
Qed.

End Interleaving.

Lemma labelled_nth (ls : list (list event)) :
  forall k j,
    nth j (labelled k ls) [] = map (pair (Some (k + j)%nat)) (nth j ls []).
Proof.
  induction ls as [|l ls IH]; intros k j; simpl.
  - destruct j; reflexivity.
  - destruct j as [|j]; [now rewrite Nat.add_0_r|].
    rewrite IH. do 3 f_equal. lia.
Qed.

Lemma filter_label_same (i : nat) (l : list event) :
  filter (has_label i) (map (pair (Some i)) l) = map (pair (Some i)) l.
Proof.
  induction l as [|e l IH]; simpl; [reflexivity|].
  unfold has_label at 1. simpl. now rewrite Nat.eqb_refl, IH.
Qed.

Lemma filter_label_other (i j : nat) (l : list event) :
  j <> i -> filter (has_label i) (map (pair (Some j)) l) = [].
Proof.
  intros Hj. induction l as [|e l IH]; simpl; [reflexivity|].
  unfold has_label at 1. simpl.
  destruct (Nat.eqb_spec j i); [contradiction | exact IH].
Qed.

Lemma filter_label_main (i : nat) (l : list event) :
  filter (has_label i) (map (pair None) l) = [].
Proof. induction l as [|e l IH]; simpl; [reflexivity | exact IH]. Qed.

(** In a schedule the events of pipeline [i] are those of its sequence, in
    the same order. *)
Lemma schedule_project (r : run) (t : list (option nat * event)) (i : nat) :
  schedule r t ->
  filter (has_label i) t = map (pair (Some i)) (nth i (pipelines r) []).
Proof.
  intros (s & Hs & ->). rewrite filter_app, filter_label_main. simpl.
  apply (interleaving_filter (has_label i)) in Hs.
  assert (Hnth : forall j,
             nth j (map (filter (has_label i)) (labelled 0 (pipelines r))) []
             = filter (has_label i)
                 (map (pair (Some j)) (nth j (pipelines r) []))).
  { intros j.
    change (@nil (option nat * event)) with (filter (has_label i) []) at 1.
    now rewrite map_nth, labelled_nth. }
  rewrite (interleaving_single i _ _ Hs).
  - rewrite Hnth. apply filter_label_same.
  - intros j Hj. rewrite Hnth. now apply filter_label_other.
Qed.

(** ** One collection *)

Section Pipeline.

Variable JSON_parse : value -> option value.
Variable ToString : value -> string.
Variable localConfig : config.

Lemma settled_requestAssetData (url url' zoneId zoneId' token token' : string)
    (method method' : option string) (body body' : value) (t : transport) :
  settled (requestAssetData JSON_parse url zoneId token method body t)
  = settled (requestAssetData JSON_parse url' zoneId' token' method' body' t).
Proof.
  destruct t as [| |error resp b]; simpl; auto.
  destruct (error || _); simpl; auto.
  destruct (truthy b); simpl; auto.
  destruct (JSON_parse b); simpl; auto.
Qed.

(** The paginator resolves exactly when the replies reach a page with
    no continuation link. *)
Lemma getDomainObjectInstances_resolves (zoneId token : string)
    (target : value) (script : list transport) :
  forall (url : string) (instances : list value),
    is_resolved
      (snd (getDomainObjectInstances JSON_parse url zoneId token instances
              target script))
    = reaches_last_page JSON_parse script.
Proof.
  induction script as [|t rest IH]; intros url instances; simpl;
    [reflexivity|].
  rewrite (settled_requestAssetData url EmptyString zoneId EmptyString token
             EmptyString None None VUndefined VUndefined t).
  destruct (settled _) as [response| |]; simpl; try reflexivity.
  destruct (continuation response) as [link|]; simpl; [|reflexivity].
  rewrite <- (IH (nextUrl link)
                (Array_concat instances (reply_body response))).
  destruct (getDomainObjectInstances _ _ _ _ _ _ rest) as [evs p].
  simpl. destruct p; reflexivity.
Qed.

(** The paginator posts nothing and prints no error. *)
Lemma getDomainObjectInstances_reads (zoneId token : string)
    (target : value) (script : list transport) :
  forall (url : string) (instances : list value),
    Forall (fun e => is_post e = false /\ is_err e = false)
      (fst (getDomainObjectInstances JSON_parse url zoneId token instances
              target script)).
Proof.
  assert (Hcall : forall url t,
             Forall (fun e => is_post e = false /\ is_err e = false)
               (issued (requestAssetData JSON_parse url zoneId token None
                          VUndefined t)
                ++ later (requestAssetData JSON_parse url zoneId token None
                            VUndefined t))).
  { intros url t. rewrite requestAssetData_issued.
    constructor; [split; reflexivity|].
    eapply Forall_impl; [|apply requestAssetData_later].
    intros e ->. split; reflexivity. }
  induction script as [|t rest IH]; intros url instances; simpl.
  - repeat constructor.
  - pose proof (Hcall url t) as Ht.
    destruct (settled _) as [response| |]; simpl; try exact Ht.
    assert (Hseen :
             Forall (fun e => is_post e = false /\ is_err e = false)
               (issued (requestAssetData JSON_parse url zoneId token None
                          VUndefined t)
                ++ later (requestAssetData JSON_parse url zoneId token None
                            VUndefined t)
                ++ [Log (Loaded (length (Array_concat instances
                                           (reply_body response))) target)])).
    { rewrite app_assoc. apply Forall_app. split; [exact Ht|].
      repeat constructor. }
    destruct (continuation response) as [link|]; simpl; [|exact Hseen].
    specialize (IH (nextUrl link)
                  (Array_concat instances (reply_body response))).
    destruct (getDomainObjectInstances _ _ _ _ _ _ rest) as [evs p].
    simpl in *. apply Forall_app. split; assumption.
Qed.

(** A pipeline is a reading phase that posts nothing followed by a
    writing phase that gets nothing; the writing phase is empty unless the
    pagination has completed. *)
Lemma migrateDomainObject_phases (originalToken destinationToken : string)
    (domainObject : value) (w : collectionReplies) (evs : list event) :
  migrateDomainObject JSON_parse ToString localConfig originalToken
    destinationToken domainObject w = Some evs ->
  exists reading writing,
    evs = reading ++ writing
    /\ Forall (fun e => is_post e = false /\ is_err e = false) reading
    /\ Forall (fun e => is_get e = false) writing
    /\ (reaches_last_page JSON_parse (pages w) = false -> writing = []).
Proof.
  unfold migrateDomainObject, loadInstances.
  destruct (member domainObject "collection") as [collection|];
    [|discriminate].
  pose proof (getDomainObjectInstances_reads
                (originalAssetZoneId localConfig) originalToken
                match member domainObject "count" with
                | Some count => count
                | None => VUndefined
                end
                (pages w)
                (originDomainObjectUrl ToString localConfig collection) [])
    as Hr.
  pose proof (getDomainObjectInstances_resolves
                (originalAssetZoneId localConfig) originalToken
                match member domainObject "count" with
                | Some count => count
                | None => VUndefined
                end
                (pages w)
                (originDomainObjectUrl ToString localConfig collection) [])
    as Hp.
  destruct (getDomainObjectInstances _ _ _ _ _ _ (pages w)) as [es p].
  simpl in *. intros E. inversion E. subst evs. clear E.
  exists (Log (LoadingData collection) :: es).
  eexists. split; [reflexivity|]. split; [|split].
  - constructor; [split; reflexivity | exact Hr].
  - destruct p; [|constructor..].
    apply filter_nil_Forall, postInstances_no_get.
  - rewrite <- Hp. destruct p; [discriminate | reflexivity..].
Qed.

(** The [i]-th pipeline of the loop is empty, or the exception that ended
    the loop, or the pipeline of a domain object run against the [i]-th
    replies. *)
Lemma eachDomainObject_nth (originalToken destinationToken : string)
    (ws : nat -> collectionReplies) (domainObjects : list value) :
  forall k i,
    let p := nth i (eachDomainObject JSON_parse ToString localConfig
                      originalToken destinationToken domainObjects ws k) []
    in
    p = [] \/ p = [Throw]
    \/ exists domainObject,
        migrateDomainObject JSON_parse ToString localConfig originalToken
          destinationToken domainObject (ws (k + i)%nat) = Some p.
Proof.
  induction domainObjects as [|d ds IH]; intros k i; simpl.
  - left. destruct i; reflexivity.
  - destruct (migrateDomainObject _ _ _ _ _ d (ws k)) as [evs|] eqn:E.
    + destruct i as [|i]; simpl.
      * right. right. exists d. now rewrite Nat.add_0_r.
      * replace (k + S i)%nat with (S k + i)%nat by lia. apply IH.
    + destruct i as [|[|i]]; simpl; auto.
Qed.

Lemma migrate_pipeline (w : world) (i : nat) :
  let p := nth i (pipelines (migrate JSON_parse ToString localConfig w)) []
  in
  p = [] \/ p = [Throw]
  \/ exists originalToken destinationToken domainObject,
      migrateDomainObject JSON_parse ToString localConfig originalToken
        destinationToken domainObject (repliesOf w i) = Some p.
Proof.
  unfold migrate.
  (destruct (is_resolved _ && is_resolved _); simpl;
     [|left; destruct i; reflexivity]);
    unfold listDomainObjects;
    (destruct (settled (requestAssetData _ _ _ _ _ _ (listingReply w)))
       as [response| |]; simpl; try (left; destruct i; reflexivity));
    (destruct (nullish (reply_body response)); simpl;
     [left; destruct i; reflexivity|]);
    (destruct (eachDomainObject_nth
                 (tokenOf ToString
                    (requestToken JSON_parse (originalUaaUrl localConfig)
                       (originalUaaCredentials localConfig) (originReply w)))
                 (tokenOf ToString
                    (requestToken JSON_parse (destinationUaaUrl localConfig)
                       (destinationUaaCredentials localConfig)
                       (destinationReply w)))
                 (repliesOf w) (each_elements (reply_body response)) 0 i)
       as [H | [H | (d & H)]]; [auto | auto | eauto 6]).
Qed.

End Pipeline.

(** ** The whole run *)

Lemma interleaving_nil {A : Type} (s : list A) : interleaving [] s -> s = [].
Proof.
  inversion 1 as [|before x l after t _ E]; [reflexivity|].
  destruct before; discriminate.
Qed.

(** When [x] is not in [a], a split of [a ++ b] at [x] leaves [a] before
    [x]. *)
Lemma split_prefix {A : Type} (x : A) (a : list A) :
  forall l1 l2 b,
    l1 ++ x :: l2 = a ++ b -> ~ In x a ->
    exists b1, l1 = a ++ b1.
Proof.
  induction a as [|y a IH]; intros l1 l2 b E Hx; simpl in E.
  - exists l1. reflexivity.
  - destruct l1 as [|z l1]; simpl in E; inversion E; subst.
    + exfalso. apply Hx. now left.
    + destruct (IH l1 l2 b) as [b1 ->];
        [assumption | intros Hin; apply Hx; now right |].
      exists b1. reflexivity.
Qed.

Section Run.

Variable JSON_parse : value -> option value.
Variable ToString : value -> string.
Variable localConfig : config.

Local Abbreviation run_of w := (migrate JSON_parse ToString localConfig w).
Local Abbreviation origin w := (originTokenRequest JSON_parse localConfig w).
Local Abbreviation destination w :=
  (destinationTokenRequest JSON_parse localConfig w).

(** C8: in every schedule of a run, a [POST] of pipeline [i] is issued
    only when the replies to that pipeline's [GET]s have reached a page
    with no continuation link, and no [GET] of pipeline [i] follows it. *)
Theorem no_post_before_last_page (w : world)
    (t t1 t2 : list (option nat * event)) (i : nat) (e : event) :
  schedule (run_of w) t ->
  t = t1 ++ (Some i, e) :: t2 ->
  is_post e = true ->
  reaches_last_page JSON_parse (pages (repliesOf w i)) = true
  /\ Forall (fun x => has_label i x = true -> is_get (snd x) = false) t2.
Proof.
  intros Hs -> He.
  pose proof (schedule_project _ _ i Hs) as Hp.
  rewrite filter_app in Hp. simpl in Hp.
  unfold has_label at 2 in Hp. simpl in Hp. rewrite Nat.eqb_refl in Hp.
  destruct (migrate_pipeline JSON_parse ToString localConfig w i)
    as [E | [E | (o & d & dobj & E)]]; simpl in E.
  - rewrite E in Hp. destruct (filter (has_label i) t1); discriminate.
  - rewrite E in Hp. simpl in Hp.
    destruct (filter (has_label i) t1) as [|x [|y l]]; simpl in Hp;
      inversion Hp; subst; discriminate.
  - destruct (migrateDomainObject_phases _ _ _ _ _ _ _ _ E)
      as (reading & writing & Ev & Hr & Hw & Hlast).
    rewrite Ev, map_app in Hp.
    destruct (split_past _ _ _ _ _ Hp) as [b1 Hb].
    { intros Hin. apply in_map_iff in Hin.
      destruct Hin as (e' & Heq & Hin). inversion Heq. subst e'.
      rewrite Forall_forall in Hr. destruct (Hr _ Hin). congruence. }
    split.
    + destruct (reaches_last_page JSON_parse (pages (repliesOf w i)));
        [reflexivity|].
      rewrite (Hlast eq_refl) in Hb. destruct b1; discriminate.
    + apply Forall_forall. intros [l e'] Hin Hl. simpl.
      assert (Hin' : In (l, e') (map (pair (Some i)) writing)).
      { rewrite Hb. apply in_or_app. right. right.
        apply filter_In. split; assumption. }
      apply in_map_iff in Hin'. destruct Hin' as (e'' & Heq & Hin').
      inversion Heq. subst.
      rewrite Forall_forall in Hw. now apply Hw.
Qed.

Lemma requestToken_issued (uaaUrl credentials : string) (t : transport) :
  issued (requestToken JSON_parse uaaUrl credentials t)
  = [TokenRequest (uaaUrl ++ "/oauth/token") ("Basic " ++ credentials)].
Proof.
  destruct t as [| |error resp b]; simpl; auto.
  destruct (negb error && _); simpl; auto.
  destruct (JSON_parse b); simpl; auto.
Qed.

Lemma requestToken_later (uaaUrl credentials : string) (t : transport) :
  Forall (fun e => e = Throw)
    (later (requestToken JSON_parse uaaUrl credentials t)).
Proof.
  destruct t as [| |error resp b]; simpl; auto.
  destruct (negb error && _); simpl; auto.
  destruct (JSON_parse b); simpl; auto.
Qed.

Lemma tokenHandlers_events (failure : message) (c : call value) :
  Forall (fun e => e = Throw \/ e = Err failure)
    (tokenHandlers ToString failure c).
Proof.
  unfold tokenHandlers. destruct (settled c) as [v| |].
  - destruct (bearer ToString v);
      [apply Forall_nil | apply Forall_cons; [now left | apply Forall_nil]].
  - apply Forall_cons; [now right | apply Forall_nil].
  - apply Forall_nil.
Qed.

Lemma tokenHandlers_quiet (failure : message) (c : call value) :
  is_rejected (settled c) = false ->
  Forall (fun e => e = Throw) (tokenHandlers ToString failure c).
Proof.
  unfold tokenHandlers. destruct (settled c) as [v| |]; intros Hr.
  - destruct (bearer ToString v);
      [apply Forall_nil | apply Forall_cons; [reflexivity | apply Forall_nil]].
  - discriminate.
  - apply Forall_nil.
Qed.

Lemma tokenHandlers_rejected (failure : message) (c : call value) :
  is_rejected (settled c) = true ->
  tokenHandlers ToString failure c = [Err failure].
Proof.
  unfold tokenHandlers. destruct (settled c); (discriminate || reflexivity).
Qed.

(** In each of the orders in which the token callbacks can fire, the
    events are those of the two callbacks, of the handlers of the two token
    promises and, at most once, the credentials line. *)
Lemma tokenCallbacks_shape (w : world) (o d : call value) :
  exists a b (fa fb : message) (oneTurn : bool),
    ((a = o /\ fa = ErrorOriginToken /\ b = d /\ fb = ErrorDestinationToken)
     \/ (a = d /\ fa = ErrorDestinationToken
         /\ b = o /\ fb = ErrorOriginToken))
    /\ tokenCallbacks ToString w o d
       = if oneTurn
         then later a ++ later b
              ++ tokenHandlers ToString fa a ++ tokenHandlers ToString fb b
              ++ (if is_rejected (settled a) || is_rejected (settled b)
                  then [Err CheckCredentials] else [])
         else later a ++ tokenHandlers ToString fa a
              ++ (if is_rejected (settled a)
                  then [Err CheckCredentials] else [])
              ++ later b ++ tokenHandlers ToString fb b
              ++ (if negb (is_rejected (settled a))
                     && is_rejected (settled b)
                  then [Err CheckCredentials] else []).
Proof.
  unfold tokenCallbacks.
  set (oneTurn := if _ || _ then _ else sameTurn w). clearbody oneTurn.
  destruct (negb _ && _); cbn [fst snd].
  - exists d, o, ErrorDestinationToken, ErrorOriginToken, oneTurn.
    split; [right; repeat split | reflexivity].
  - exists o, d, ErrorOriginToken, ErrorDestinationToken, oneTurn.
    split; [left; repeat split | reflexivity].
Qed.

Lemma tokenCallbacks_events (w : world) (o d : call value) :
  Forall (fun e => e = Throw) (later o) ->
  Forall (fun e => e = Throw) (later d) ->
  Forall (fun e => e = Throw \/ is_err e = true)
    (tokenCallbacks ToString w o d).
Proof.
  intros Ho Hd.
  assert (Hl : forall c : call value,
             Forall (fun e => e = Throw) (later c) ->
             Forall (fun e => e = Throw \/ is_err e = true) (later c)).
  { intros c Hc. eapply Forall_impl; [|exact Hc]. auto. }
  assert (Hh : forall f c,
             Forall (fun e => e = Throw \/ is_err e = true)
               (tokenHandlers ToString f c)).
  { intros f c. eapply Forall_impl; [|apply tokenHandlers_events].
    intros e [-> | ->]; auto. }
  assert (Hc : forall b : bool,
             Forall (fun e => e = Throw \/ is_err e = true)
               (if b then [Err CheckCredentials] else [])).
  { intros [|]; [apply Forall_cons; [now right | apply Forall_nil]
                | apply Forall_nil]. }
  destruct (tokenCallbacks_shape w o d)
    as (a & b & fa & fb & oneTurn & Hab & ->).
  assert (Ha : Forall (fun e => e = Throw) (later a)
               /\ Forall (fun e => e = Throw) (later b))
    by (destruct Hab as [(-> & _ & -> & _) | (-> & _ & -> & _)]; auto).
  destruct Ha as [Ha Hb].
  destruct oneTurn; repeat (apply Forall_app; split); auto.
Qed.

Lemma tokenCallbacks_without_rejection (w : world) (o d : call value) :
  Forall (fun e => e = Throw) (later o) ->
  Forall (fun e => e = Throw) (later d) ->
  is_rejected (settled o) = false ->
  is_rejected (settled d) = false ->
  Forall (fun e => e = Throw) (tokenCallbacks ToString w o d).
Proof.
  intros Ho Hd Ro Rd.
  destruct (tokenCallbacks_shape w o d)
    as (a & b & fa & fb & oneTurn & Hab & ->).
  assert (Ha : (Forall (fun e => e = Throw) (later a)
                /\ is_rejected (settled a) = false)
               /\ Forall (fun e => e = Throw) (later b)
               /\ is_rejected (settled b) = false)
    by (destruct Hab as [(-> & _ & -> & _) | (-> & _ & -> & _)]; auto).
  destruct Ha as [[Ha Ra] [Hb Rb]]. rewrite Ra, Rb. simpl.
  destruct oneTurn; rewrite ?app_nil_r;
    repeat (apply Forall_app; split);
    auto using tokenHandlers_quiet.
Qed.

(** The credentials line is printed when a token promise is rejected. *)
Lemma tokenCallbacks_reports (w : world) (o d : call value) :
  is_rejected (settled o) || is_rejected (settled d) = true ->
  In (Err CheckCredentials) (tokenCallbacks ToString w o d).
Proof.
  intros Hrej.
  destruct (tokenCallbacks_shape w o d)
    as (a & b & fa & fb & oneTurn & Hab & ->).
  assert (Hr : is_rejected (settled a) || is_rejected (settled b) = true)
    by (destruct Hab as [(-> & _ & -> & _) | (-> & _ & -> & _)];
        [exact Hrej | now rewrite orb_comm]).
  destruct oneTurn; rewrite !in_app_iff.
  - rewrite Hr. simpl. tauto.
  - destruct (is_rejected (settled a)); simpl in *; [tauto|].
    rewrite Hr. simpl. tauto.
Qed.

(** The run starts with the two token requests and what their callbacks
    do; no call of the record transport is among these events, and nothing
    follows them unless both token promises resolve. *)
Lemma migrate_token_phase (w : world) :
  exists arrived rest,
    main (run_of w)
    = [Log RetrievingOriginToken;
       TokenRequest (originalUaaUrl localConfig ++ "/oauth/token")
         ("Basic " ++ originalUaaCredentials localConfig);
       Log RetrievingDestinationToken;
       TokenRequest (destinationUaaUrl localConfig ++ "/oauth/token")
         ("Basic " ++ destinationUaaCredentials localConfig)]
      ++ arrived ++ rest
    /\ Forall (fun e => is_asset_request e = false) arrived
    /\ (is_resolved (settled (origin w))
        && is_resolved (settled (destination w)) = false ->
        rest = [] /\ pipelines (run_of w) = [])
    /\ (is_rejected (settled (origin w))
        || is_rejected (settled (destination w)) = true ->
        In (Err CheckCredentials) arrived).
Proof.
  unfold migrate, originTokenRequest, destinationTokenRequest.
  rewrite !requestToken_issued.
  set (o := requestToken JSON_parse (originalUaaUrl localConfig)
              (originalUaaCredentials localConfig) (originReply w)).
  set (d := requestToken JSON_parse (destinationUaaUrl localConfig)
              (destinationUaaCredentials localConfig) (destinationReply w)).
  exists (tokenCallbacks ToString w o d).
  assert (Hq : Forall (fun e => is_asset_request e = false)
                 (tokenCallbacks ToString w o d)).
  { eapply Forall_impl;
      [|apply tokenCallbacks_events; apply requestToken_later].
    intros e [-> | He]; [reflexivity | now destruct e]. }
  destruct (is_resolved (settled o) && is_resolved (settled d)) eqn:R;
    simpl main; simpl pipelines.
  - eexists. split; [simpl; rewrite <- ?app_assoc; reflexivity|].
    split; [exact Hq|]. split; [discriminate|].
    destruct (settled d), (settled o); discriminate.
  - exists []. rewrite app_nil_r. split; [reflexivity|].
    split; [exact Hq|]. split; [auto|].
    apply tokenCallbacks_reports.
Qed.

(** C6: in every schedule of a run, a call of the record transport
    (the listing, a [GET] or a [POST]) is issued only when both token
    promises have resolved, and after both token requests; and when one of
    the token promises is rejected, the run prints the credentials error
    and makes no such call at all. *)
Theorem tokens_gate (w : world) (t : list (option nat * event)) :
  schedule (run_of w) t ->
  (forall t1 l e t2,
      t = t1 ++ (l, e) :: t2 ->
      is_asset_request e = true ->
      is_resolved (settled (origin w)) = true
      /\ is_resolved (settled (destination w)) = true
      /\ In (None,
             TokenRequest (originalUaaUrl localConfig ++ "/oauth/token")
               ("Basic " ++ originalUaaCredentials localConfig)) t1
      /\ In (None,
             TokenRequest (destinationUaaUrl localConfig ++ "/oauth/token")
               ("Basic " ++ destinationUaaCredentials localConfig)) t1)
  /\ (is_rejected (settled (origin w))
      || is_rejected (settled (destination w)) = true ->
      In (None, Err CheckCredentials) t
      /\ Forall (fun x => is_asset_request (snd x) = false) t).
Proof.
  intros (s & Hs & ->).
  destruct (migrate_token_phase w)
    as (arrived & rest & Hmain & Hquiet & Hstop & Hreport).
  rewrite Hmain.
  set (started :=
         [Log RetrievingOriginToken;
          TokenRequest (originalUaaUrl localConfig ++ "/oauth/token")
            ("Basic " ++ originalUaaCredentials localConfig);
          Log RetrievingDestinationToken;
          TokenRequest (destinationUaaUrl localConfig ++ "/oauth/token")
            ("Basic " ++ destinationUaaCredentials localConfig)]) in *.
  assert (Hstarted : forall (l : option nat) e,
             is_asset_request e = true ->
             ~ In (l, e) (map (pair None) started)).
  { intros l e He Hin. apply in_map_iff in Hin.
    destruct Hin as (e' & Heq & Hin). inversion Heq. subst.
    simpl in Hin. repeat destruct Hin as [<- | Hin]; try discriminate.
    exact Hin. }
  assert (Hgate : forall t1 l e t2,
             map (pair None) (started ++ arrived ++ rest) ++ s
             = t1 ++ (l, e) :: t2 ->
             is_asset_request e = true ->
             is_resolved (settled (origin w)) = true
             /\ is_resolved (settled (destination w)) = true
             /\ In (None,
                    TokenRequest
                      (originalUaaUrl localConfig ++ "/oauth/token")
                      ("Basic " ++ originalUaaCredentials localConfig)) t1
             /\ In (None,
                    TokenRequest
                      (destinationUaaUrl localConfig ++ "/oauth/token")
                      ("Basic " ++ destinationUaaCredentials localConfig))
                  t1).
  { intros t1 l e t2 E He.
    destruct (is_resolved (settled (origin w))
              && is_resolved (settled (destination w))) eqn:R.
    - apply andb_true_iff in R. destruct R as [Ro Rd].
      rewrite map_app, <- app_assoc in E. symmetry in E.
      destruct (split_prefix _ _ _ _ _ E (Hstarted l e He)) as [b1 ->].
      repeat split; try assumption; apply in_or_app; left; simpl; auto.
    - destruct (Hstop eq_refl) as [-> Hnone].
      rewrite Hnone in Hs. simpl in Hs. apply interleaving_nil in Hs.
      subst s. rewrite !app_nil_r in E.
      assert (Hin : In (l, e) (map (pair None) (started ++ arrived)))
        by (rewrite E; apply in_or_app; right; now left).
      apply in_map_iff in Hin. destruct Hin as (e' & Heq & Hin).
      injection Heq as Hl He'. subst l e. apply in_app_or in Hin.
      destruct Hin as [Hin | Hin].
      + exfalso. apply (Hstarted None e' He).
        apply in_map_iff. eauto.
      + rewrite Forall_forall in Hquiet. rewrite (Hquiet _ Hin) in He.
        discriminate. }
  split; [intros t1 l e t2 E He; now apply (Hgate t1 l e t2)|].
  intros Hrej. split.
  - apply in_or_app. left. apply in_map. apply in_or_app. right.
    apply in_or_app. left. now apply Hreport.
  - apply Forall_forall. intros [l e] Hin. simpl.
    destruct (is_asset_request e) eqn:He; [exfalso | reflexivity].
    destruct (in_split _ _ Hin) as (t1 & t2 & E).
    destruct (Hgate t1 l e t2 E He) as (Ro & Rd & _).
    destruct (settled (origin w)), (settled (destination w));
      discriminate.
Qed.

(** X20: a pipeline whose pagination does not complete, be it rejected
    or left pending, posts nothing and prints no error. *)
Lemma pagination_failure_silent (originalToken destinationToken : string)
    (domainObject : value) (w : collectionReplies) (evs : list event) :
  migrateDomainObject JSON_parse ToString localConfig originalToken
    destinationToken domainObject w = Some evs ->
  reaches_last_page JSON_parse (pages w) = false ->
  Forall (fun e => is_post e = false /\ is_err e = false) evs.
Proof.
  intros E Hlast.
  destruct (migrateDomainObject_phases _ _ _ _ _ _ _ _ E)
    as (reading & writing & -> & Hr & _ & Hw).
  rewrite (Hw Hlast), app_nil_r. exact Hr.
Qed.

Lemma migrateDomainObject_None (originalToken destinationToken : string)
    (domainObject : value) (w : collectionReplies) :
  migrateDomainObject JSON_parse ToString localConfig originalToken
    destinationToken domainObject w = None
  <-> member domainObject "collection" = None.
Proof.
  unfold migrateDomainObject.
  destruct (member domainObject "collection"); [|tauto].
  destruct (loadInstances _ _ _ _ _ _ _). split; discriminate.
Qed.

End Run.

(** * Examples *)

Lemma interleaving_one {A : Type} (l : list A) : interleaving [l] l.
Proof.
  induction l as [|x l IH].
  - constructor. repeat constructor.
  - exact (interleaving_step [] x l [] l IH).
Qed.

(** The delimiter rule and line 96 on the header of a first page. *)
Lemma nextUrl_loses_last_character_witness :
  between_brackets Sample.next_link
  = Some "https://asset.origin/sensors?pageSize=1000&cursor=2"
  /\ nextUrl Sample.next_link
     = "https://asset.origin/sensors?pageSize=1000&cursor="
  /\ nextUrl Sample.next_link
     <> "https://asset.origin/sensors?pageSize=1000&cursor=2".
Proof.
  apply (nextUrl_loses_last_character EmptyString
           "https://asset.origin/sensors?pageSize=1000&cursor=2" "; rel=next");
    [reflexivity | reflexivity | reflexivity | discriminate].
Defined.

(** Two pages are fetched with two calls. *)
Lemma getDomainObjectInstances_pages_witness :
  paginated Sample.JSON_parse (pages Sample.two_pages)
    [[Sample.sensor1]; [Sample.sensor2]]
  /\ snd (getDomainObjectInstances Sample.JSON_parse "start" "zone" "token" []
            (VNum 2) (pages Sample.two_pages ++ []))
     = Resolved ([] ++ concat [[Sample.sensor1]; [Sample.sensor2]])
  /\ transport_calls
       (fst (getDomainObjectInstances Sample.JSON_parse "start" "zone" "token"
               [] (VNum 2) (pages Sample.two_pages ++ [])))
     = length [[Sample.sensor1]; [Sample.sensor2]]
  /\ length (pages Sample.two_pages)
     = length [[Sample.sensor1]; [Sample.sensor2]].
Proof.
  assert (H : paginated Sample.JSON_parse (pages Sample.two_pages)
                [[Sample.sensor1]; [Sample.sensor2]]).
  { apply paginated_more with (link := Sample.next_link);
      [|apply paginated_last];
      (eexists _, _, _;
       split; [reflexivity|];
       split; [exists "00"%string; reflexivity|];
       split; [reflexivity|];
       split; [reflexivity|];
       split; [reflexivity|]).
    - split; [reflexivity | discriminate].
    - reflexivity. }
  split; [exact H|].
  exact (getDomainObjectInstances_pages Sample.JSON_parse "zone" "token"
           (VNum 2) _ _ H "start" [] []).
Defined.

(** A 204 reply without a body puts [null] among the instances. *)
Lemma getDomainObjectInstances_null_entry_witness :
  snd (getDomainObjectInstances Sample.JSON_parse "start" "zone" "token"
         [Sample.sensor1] (VNum 2) [Sample.no_content])
  = Resolved [Sample.sensor1; VNull].
Proof.
  refine (proj1 (proj2
    (getDomainObjectInstances_null_entry Sample.JSON_parse "zone" "token"
       (VNum 2) "start" [Sample.sensor1]
       {| statusCode := 204; headers := Some [] |} (VStr EmptyString) []
       _ _)) _);
    [exists "04"%string; reflexivity | reflexivity | reflexivity].
Defined.

(** Three records in chunks of two. *)
Lemma postInstances_chunks_witness :
  length (filter is_post
            (postInstances Sample.JSON_parse Sample.ToString Sample.localConfig
               2 "Bearer t" (VStr "sensors") Sample.one_page
               (map VObj Sample.three_records)))
  = 2%nat
  /\ concat (flat_map posted
               (postInstances Sample.JSON_parse Sample.ToString
                  Sample.localConfig 2 "Bearer t" (VStr "sensors")
                  Sample.one_page (map VObj Sample.three_records)))
     = [VObj [("uri", VStr "/sensors/1"); ("migrationDate", VDate 1000)];
        VObj [("uri", VStr "/sensors/2"); ("migrationDate", VDate 1001)];
        VObj [("uri", VStr "/sensors/3"); ("migrationDate", VDate 1002)]].
Proof.
  pose proof (postInstances_chunks Sample.JSON_parse Sample.ToString
                Sample.localConfig "Bearer t" (VStr "sensors") 2
                Sample.one_page Sample.three_records ltac:(lia)) as H.
  split; [exact (proj1 H) | exact (proj2 (proj2 (proj2 (proj2 H))))].
Defined.

(** The same upload leaves every [uri] as it was. *)
Lemma postInstances_frame_witness :
  Forall2 untouched Sample.three_records
    (concat (flat_map posted
               (postInstances Sample.JSON_parse Sample.ToString
                  Sample.localConfig 2 "Bearer t" (VStr "sensors")
                  Sample.one_page (map VObj Sample.three_records)))).
Proof.
  exact (proj1 (postInstances_frame Sample.JSON_parse Sample.ToString
                  Sample.localConfig "Bearer t" (VStr "sensors") 2
                  Sample.one_page Sample.three_records ltac:(lia))).
Defined.

(** C5 (the code at a failing input): collections [a] and [b], the first
    page of [a] answered with status 500.  The pipeline of [a] stops after
    its [GET] and [b] is migrated in full, but no error line is printed
    anywhere in the run; the same holds when it is the second page of [a]
    that is refused. *)
Theorem pagination_failure_goes_unreported :
  let r := migrate Sample.JSON_parse Sample.ToString Sample.localConfig
             (Sample.a_fails Sample.first_page_fails) in
  let r' := migrate Sample.JSON_parse Sample.ToString Sample.localConfig
              (Sample.a_fails Sample.second_page_fails) in
  nth 0 (pipelines r) []
  = [Log (LoadingData (VStr "a"));
     AssetRequest
       (assetOptions "https://asset.origin/a?pageSize=1000" "zone-origin"
          "Bearer t" None VUndefined)]
  /\ filter is_err (main r ++ concat (pipelines r)) = []
  /\ last (nth 1 (pipelines r) []) Throw = Log (FinishedPosting 1)
  /\ filter is_post (nth 0 (pipelines r') []) = []
  /\ filter is_err (main r' ++ concat (pipelines r')) = []
  /\ last (nth 1 (pipelines r') []) Throw = Log (FinishedPosting 1).
Proof. vm_compute. repeat split. Qed.

(** A destination token request answered with status 401: the run prints
    the credentials error and calls the record transport not once. *)
Lemma tokens_gate_witness :
  is_rejected
    (settled (destinationTokenRequest Sample.JSON_parse Sample.localConfig
                Sample.unauthorized)) = true
  /\ In (@None nat, Err CheckCredentials)
       (map (pair (@None nat))
          (main (migrate Sample.JSON_parse Sample.ToString Sample.localConfig
                   Sample.unauthorized)))
  /\ Forall (fun x => is_asset_request (snd x) = false)
       (map (pair (@None nat))
          (main (migrate Sample.JSON_parse Sample.ToString Sample.localConfig
                   Sample.unauthorized))).
Proof.
  split; [reflexivity|].
  refine (proj2 (tokens_gate Sample.JSON_parse Sample.ToString
                   Sample.localConfig Sample.unauthorized _ _) _);
    [|reflexivity].
  exists []. split; [constructor; constructor | now rewrite app_nil_r].
Defined.

(** One collection of one page: its [POST] is the fifteenth event of the
    run, and no [GET] follows it. *)
Lemma no_post_before_last_page_witness :
  let r := migrate Sample.JSON_parse Sample.ToString Sample.localConfig
             Sample.sensors_world in
  let t := map (pair None) (main r)
           ++ map (pair (Some 0%nat)) (nth 0 (pipelines r) []) in
  is_post (snd (nth 14 t (None, Throw))) = true
  /\ reaches_last_page Sample.JSON_parse
       (pages (repliesOf Sample.sensors_world 0)) = true
  /\ Forall (fun x => has_label 0 x = true -> is_get (snd x) = false)
       (skipn 15 t).
Proof.
  intros r t. split; [reflexivity|].
  apply (no_post_before_last_page Sample.JSON_parse Sample.ToString
           Sample.localConfig Sample.sensors_world t (firstn 14 t)
           (skipn 15 t) 0 (snd (nth 14 t (None, Throw)))).
  - exists (map (pair (Some 0%nat)) (nth 0 (pipelines r) [])).
    split; [apply interleaving_one | reflexivity].
  - reflexivity.
  - reflexivity.
Defined.

(** * Further properties *)

(** ** The continuation link on malformed headers *)

Lemma indexOf_absent (c : ascii) (s : string) :
  JsString.mem c s = false -> JsString.indexOf s c = -1.
Proof.
  induction s as [|a s IH]; simpl; [reflexivity|].
  intros H. apply orb_false_iff in H. destruct H as [Ha Hs].
  rewrite Ha, (IH Hs). reflexivity.
Qed.

Lemma before_None (c : ascii) (s : string) :
  JsString.before c s = None -> JsString.mem c s = false.
Proof.
  induction s as [|a s IH]; simpl; [reflexivity|].
  destruct (Ascii.eqb a c); [discriminate|].
  destruct (JsString.before c s); [discriminate|]. auto.
Qed.

Lemma before_Some (c : ascii) (s pre : string) :
  JsString.before c s = Some pre ->
  JsString.mem c pre = false /\ exists rest, s = (pre ++ String c rest)%string.
Proof.
  revert pre. induction s as [|a s IH]; simpl; intros pre; [discriminate|].
  destruct (Ascii.eqb a c) eqn:E.
  - intros H. inversion H. subst pre. apply Ascii.eqb_eq in E. subst a.
    split; [reflexivity | exists s; reflexivity].
  - destruct (JsString.before c s) as [p|]; [|discriminate]. simpl.
    intros H. inversion H. subst pre.
    destruct (IH p eq_refl) as [Hm [rest ->]].
    split; [simpl; now rewrite E, Hm | exists rest; reflexivity].
Qed.

Lemma substring_prefix (a b : string) :
  String.substring 0 (String.length a) (a ++ b)%string = a.
Proof.
  induction a as [|x a IH]; simpl.
  - destruct b; reflexivity.
  - now rewrite IH.
Qed.

(** X1: on a header value with no ['>'], line 96 yields the part of the
    value up to and including its first ['<'], and the empty string when
    there is no ['<'] either. *)
Theorem nextUrl_unclosed (link : string) :
  JsString.mem ">" link = false ->
  nextUrl link
  = match JsString.before "<" link with
    | Some pre => (pre ++ "<")%string
    | None => EmptyString
    end.
Proof.
  intros Hgt. unfold nextUrl. rewrite (indexOf_absent _ _ Hgt).
  destruct (JsString.before "<" link) as [pre|] eqn:B.
  - destruct (before_Some _ _ _ B) as [Hm [rest ->]].
    rewrite (indexOf_first "<" pre rest Hm).
    unfold JsString.substring, JsString.clamp.
    rewrite string_app_length. simpl String.length.
    set (p := String.length pre).
    replace (Z.min _ _) with 0 by lia.
    replace (Z.max _ _ - 0) with (Z.of_nat (p + 1)) by lia.
    rewrite Nat2Z.id. simpl Z.to_nat.
    replace (pre ++ String "<" rest)%string
      with ((pre ++ "<") ++ rest)%string
      by (rewrite string_app_assoc; reflexivity).
    replace (p + 1)%nat with (String.length (pre ++ "<")%string)
      by (rewrite string_app_length; reflexivity).
    apply substring_prefix.
  - rewrite (indexOf_absent _ _ (before_None _ _ B)).
    unfold JsString.substring, JsString.clamp.
    replace (Z.min _ _) with 0 by lia.
    replace (Z.max _ _ - 0) with 0 by lia.
    simpl. destruct link; reflexivity.
Qed.

(** ** Status codes *)


(** X2: for a three-digit status, the test of line 65 accepts the reply
    exactly when the status is one of 200 to 299. *)
Theorem three_digit_statuses (n : Z) (hs : option (list (string * string))) :
  100 <= n <= 999 ->
  not_2xx {| statusCode := n; headers := hs |} = false <-> 200 <= n <= 299.
Proof.
  intros Hn.
  assert (Hall : statuses_agree 100 900 = true) by (vm_compute; reflexivity).
  unfold statuses_agree in Hall. rewrite forallb_forall in Hall.
  specialize (Hall (Z.to_nat (n - 100))).
  replace (100 + Z.of_nat (Z.to_nat (n - 100))) with n in Hall by lia.
  assert (Hin : In (Z.to_nat (n - 100)) (seq 0 900)) by (apply in_seq; lia).
  specialize (Hall Hin). apply Bool.eqb_prop in Hall.
  change (not_2xx {| statusCode := n; headers := hs |})
    with (not_2xx {| statusCode := n; headers := None |}).
  rewrite Hall, negb_false_iff, andb_true_iff, !Z.leb_le. tauto.
Qed.

(** ** More on the paginator *)

Section PaginatorRuns.

Variable JSON_parse : value -> option value.
Variables zoneId token : string.
Variable target : value.

Local Abbreviation paginate url instances script :=
  (getDomainObjectInstances JSON_parse url zoneId token instances target
     script).

Lemma requested_app (a b : list event) :
  requested (a ++ b) = requested a ++ requested b.
Proof. apply flat_map_app. Qed.

Lemma loaded_app (a b : list event) :
  loaded (a ++ b) = loaded a ++ loaded b.
Proof. apply flat_map_app. Qed.

(** X3: the paginator is rejected exactly when the reply to its first
    [GET] makes the transport reject; a failure on any later page leaves its
    promise pending for ever. *)
Theorem getDomainObjectInstances_rejected (url : string)
    (instances : list value) (script : list transport) :
  snd (paginate url instances script) = Rejected
  <-> exists t rest, script = t :: rest /\ reply_rejects JSON_parse t = true.
Proof.
  unfold reply_rejects. destruct script as [|t rest]; simpl.
  - split; [discriminate | intros (t & rest & H & _); discriminate].
  - rewrite (settled_requestAssetData JSON_parse url EmptyString zoneId
               EmptyString token EmptyString None None VUndefined VUndefined t).
    destruct (settled _) as [response| |] eqn:Es; simpl.
    + assert (Hno : ~ exists t' rest',
                 t :: rest = t' :: rest'
                 /\ is_rejected
                      (settled (requestAssetData JSON_parse EmptyString
                                  EmptyString EmptyString None VUndefined t'))
                    = true).
      { intros (t' & rest' & H & Hr). inversion H. subst t' rest'.
        rewrite Es in Hr. discriminate. }
      destruct (continuation response) as [link|]; simpl.
      * destruct (paginate (nextUrl link) _ rest) as [evs p]. simpl.
        split; [destruct p; discriminate | intros H; now destruct Hno].
      * split; [discriminate | intros H; now destruct Hno].
    + split; [intros _; exists t, rest; now rewrite Es | reflexivity].
    + split; [discriminate|].
      intros (t' & rest' & H & Hr). inversion H. subst t' rest'.
      rewrite Es in Hr. discriminate.
Qed.

(** X4: there is no cap on the number of pages: when every reply at hand
    is a page with a continuation link, the paginator has made one call per
    reply and one more, and has not resolved. *)
Theorem getDomainObjectInstances_endless (script : list transport) :
  Forall (fun t => exists records link,
              serves JSON_parse t records (Some link)) script ->
  forall (url : string) (instances : list value),
    snd (paginate url instances script) = Pending
    /\ transport_calls (fst (paginate url instances script))
       = S (length script).
Proof.
  induction 1 as [|t rest (records & link & Hs) _ IH]; intros url instances.
  - split; reflexivity.
  - destruct (requestAssetData_serves JSON_parse zoneId token url t records
                (Some link) Hs) as (r & hs & E & Hc).
    simpl. rewrite E. simpl. rewrite Hc.
    specialize (IH (nextUrl link) (instances ++ records)).
    destruct (paginate (nextUrl link) (instances ++ records) rest)
      as [evs p].
    simpl in *. destruct IH as [-> Hn]. split; [reflexivity|].
    change (AssetRequest r
              :: Log (Loaded (length (instances ++ records)) target) :: evs)
      with ([AssetRequest r;
             Log (Loaded (length (instances ++ records)) target)] ++ evs).
    rewrite transport_calls_app, Hn. reflexivity.
Qed.

(** X5: the first [GET] goes to the URL the paginator is given and each
    further one to what line 96 makes of the previous page's link header. *)
Theorem getDomainObjectInstances_follows (script : list transport)
    (links : list string) :
  linked JSON_parse script links ->
  forall (url : string) (instances : list value) (rest : list transport),
    requested (fst (paginate url instances (script ++ rest)))
    = url :: map nextUrl links.
Proof.
  induction 1 as [t recs Hs | t recs link ts links Hs Hl IH];
    intros url instances rest.
  - destruct (requestAssetData_serves JSON_parse zoneId token url t recs None
                Hs) as (r & hs & E & Hc).
    simpl. rewrite E. simpl. rewrite Hc. simpl.
    pose proof (requestAssetData_issued JSON_parse url zoneId token None
                  VUndefined t) as Hi.
    rewrite E in Hi. simpl in Hi. inversion Hi. reflexivity.
  - destruct (requestAssetData_serves JSON_parse zoneId token url t recs
                (Some link) Hs) as (r & hs & E & Hc).
    simpl. rewrite E. simpl. rewrite Hc.
    specialize (IH (nextUrl link) (instances ++ recs) rest).
    destruct (paginate (nextUrl link) (instances ++ recs) (ts ++ rest))
      as [evs p].
    simpl in *. rewrite IH.
    pose proof (requestAssetData_issued JSON_parse url zoneId token None
                  VUndefined t) as Hi.
    rewrite E in Hi. simpl in Hi. inversion Hi. reflexivity.
Qed.

(** X6: the progress lines report the running total of the instances:
    what the paginator was given plus the records of the pages so far. *)
Theorem getDomainObjectInstances_progress (script : list transport)
    (records : list (list value)) :
  paginated JSON_parse script records ->
  forall (url : string) (instances : list value) (rest : list transport),
    loaded (fst (paginate url instances (script ++ rest)))
    = totals (length instances) records.
Proof.
  induction 1 as [t recs Hs | t recs link ts rs Hs Hp IH];
    intros url instances rest.
  - destruct (requestAssetData_serves JSON_parse zoneId token url t recs None
                Hs) as (r & hs & E & Hc).
    simpl. rewrite E. simpl. rewrite Hc. simpl.
    now rewrite length_app.
  - destruct (requestAssetData_serves JSON_parse zoneId token url t recs
                (Some link) Hs) as (r & hs & E & Hc).
    simpl. rewrite E. simpl. rewrite Hc.
    specialize (IH (nextUrl link) (instances ++ recs) rest).
    destruct (paginate (nextUrl link) (instances ++ recs) (ts ++ rest))
      as [evs p].
    simpl in *. now rewrite IH, length_app.
Qed.

End PaginatorRuns.

(** ** More on the upload phase *)

Lemma chunk_step {A : Type} (size : nat) (l : list A) :
  (0 < size)%nat -> l <> [] ->
  chunk size l = firstn size l :: chunk size (skipn size l).
Proof.
  intros Hs Hl. destruct size as [|m]; [lia|].
  destruct l as [|x xs]; [congruence|]. now simp chunk.
Qed.

Lemma set_prop_keys {A : Type} (k : string) (v : A) (l : list (string * A)) :
  map fst (set_prop k v l)
  = match assoc k l with
    | Some _ => map fst l
    | None => map fst l ++ [k]
    end.
Proof.
  induction l as [|[k' a] l IH]; simpl; [reflexivity|].
  destruct (String.eqb k' k) eqn:E; simpl; [reflexivity|].
  rewrite IH. now destruct (assoc k l).
Qed.

Lemma stamped_nth (clock : nat -> Z) (rs : list (list (string * value))) :
  forall k i,
    (i < length rs)%nat ->
    nth i (stamped clock k rs) VUndefined
    = VObj (set_prop "migrationDate" (VDate (clock (k + i)%nat))
              (nth i rs [])).
Proof.
  induction rs as [|r rs IH]; intros k i Hi; simpl in *; [lia|].
  destruct i as [|i]; [now rewrite Nat.add_0_r|].
  rewrite IH by lia. do 4 f_equal. lia.
Qed.

Lemma stamp_unstampable (now : Z) (v : value) :
  unstampable v = true -> stamp now v = None.
Proof. destruct v; simpl; congruence. Qed.

Lemma stampAll_unstampable (clock : nat -> Z)
    (good : list (list (string * value))) (bad : value) (rest : list value) :
  unstampable bad = true ->
  forall k, stampAll clock k (map VObj good ++ bad :: rest) = None.
Proof.
  intros Hbad. induction good as [|g good IH]; intros k; simpl.
  - now rewrite (stamp_unstampable _ _ Hbad).
  - now rewrite IH.
Qed.

Section UploadRuns.

Variable JSON_parse : value -> option value.
Variable ToString : value -> string.
Variable localConfig : config.
Variable destinationToken : string.
Variable collection : value.

Local Abbreviation send size w instances :=
  (postInstances JSON_parse ToString localConfig size destinationToken
     collection w instances).

Local Abbreviation each_chunk clock k chunks posts :=
  (postChunks JSON_parse ToString localConfig destinationToken collection
     clock k chunks posts).

(** X7: whatever timestamp a record had, the [i]-th record that is posted
    carries as [migrationDate] the [i]-th reading of the clock; its other
    properties keep their names and their order, [migrationDate] coming last
    when the record had none. *)
Theorem postInstances_timestamps (size : nat) (w : collectionReplies)
    (records : list (list (string * value))) (i : nat) :
  (0 < size)%nat ->
  (i < length records)%nat ->
  exists props,
    nth i (concat (flat_map posted (send size w (map VObj records))))
      VUndefined = VObj props
    /\ assoc "migrationDate" props = Some (VDate (clock w i))
    /\ map fst props = stamped_keys (nth i records []).
Proof.
  intros Hs Hi.
  destruct (postInstances_posted JSON_parse ToString localConfig
              destinationToken collection size w records) as [-> _].
  rewrite chunk_concat, stamped_nth by assumption.
  eexists. split; [reflexivity|]. split.
  - apply assoc_set_prop_same.
  - apply set_prop_keys.
Qed.

(** What [Promise.all] is given by a loop over chunks of objects. *)
Lemma postChunks_objects_calls (clock : nat -> Z)
    (css : list (list (list (string * value)))) :
  forall (k : nat) (posts : list transport),
    filter is_verdict (fst (fst (each_chunk clock k (map (map VObj) css) posts)))
    = []
    /\ existsb (fun c => is_rejected (settled c))
         (snd (fst (each_chunk clock k (map (map VObj) css) posts)))
       = existsb (reply_rejects JSON_parse) (first_replies (length css) posts)
    /\ forallb (fun c => is_resolved (settled c))
         (snd (fst (each_chunk clock k (map (map VObj) css) posts)))
       = forallb (reply_resolves JSON_parse)
           (first_replies (length css) posts).
Proof.
  induction css as [|cs css IH]; intros k posts; simpl.
  - repeat split.
  - rewrite stampAll_objects, length_map.
    specialize (IH (k + length cs)%nat (tl posts)).
    destruct (each_chunk clock (k + length cs)%nat (map (map VObj) css)
                (tl posts)) as [[evs calls] done].
    simpl in *. destruct IH as (Hv & He & Hf).
    rewrite requestAssetData_issued. simpl.
    rewrite He, Hf. unfold reply_rejects, reply_resolves.
    rewrite (settled_requestAssetData JSON_parse
               (destinationAssetUrl localConfig
                ++ String "/" (ToString collection))
               EmptyString (destinationAssetZoneId localConfig) EmptyString
               destinationToken EmptyString (Some "POST"%string) None
               (VArr (stamped clock k cs)) VUndefined (hd Hangs posts)).
    repeat split. exact Hv.
Qed.

(** X8: once every chunk of a collection has been posted, the upload ends
    with the error line when the reply to one of the [POST]s makes the
    transport reject, with the line that reports success when all of them
    make it resolve, and with no line at all otherwise; there is no partial
    success. *)
Theorem postInstances_verdict (size : nat) (w : collectionReplies)
    (records : list (list (string * value))) :
  (0 < size)%nat ->
  filter is_verdict (send size w (map VObj records))
  = if existsb (reply_rejects JSON_parse)
         (first_replies (ceil_div (length records) size) (posts w))
    then [Err ErrorPosting]
    else if forallb (reply_resolves JSON_parse)
              (first_replies (ceil_div (length records) size) (posts w))
         then [Log (FinishedPosting (length records))]
         else [].
Proof.
  intros Hs. rewrite <- (chunk_length size records Hs).
  unfold postInstances. rewrite chunk_map.
  pose proof (postChunks_objects JSON_parse ToString localConfig
                destinationToken collection (clock w) (chunk size records)
                0%nat (posts w)) as H.
  pose proof (postChunks_objects_calls (clock w) (chunk size records) 0%nat
                (posts w)) as H'.
  pose proof (postChunks_thrown JSON_parse ToString localConfig
                destinationToken collection (clock w)
                (map (map VObj) (chunk size records)) 0%nat (posts w))
    as Ht.
  destruct (each_chunk (clock w) 0%nat (map (map VObj) (chunk size records))
              (posts w)) as [[evs calls] done].
  simpl in H, H', Ht. destruct H as (-> & _ & _ & Hq).
  destruct H' as (Hv & <- & <-).
  rewrite 2!filter_app, Hv, length_map.
  rewrite (verdict_once (length records) (together w) _ calls Hq Ht).
  reflexivity.
Qed.

(** The loop over the chunks of a list with an unstampable entry. *)
Lemma postChunks_aborts (size : nat) (clock : nat -> Z) (bad : value)
    (rest : list value) :
  (0 < size)%nat ->
  unstampable bad = true ->
  forall (n : nat) (good : list (list (string * value))) (k : nat)
         (posts : list transport),
    (length good <= n)%nat ->
    snd (each_chunk clock k (chunk size (map VObj good ++ bad :: rest)) posts)
    = false
    /\ length (filter is_post
                 (fst (fst (each_chunk clock k
                              (chunk size (map VObj good ++ bad :: rest))
                              posts))))
       = (length good / size)%nat
    /\ In Throw
         (fst (fst (each_chunk clock k
                      (chunk size (map VObj good ++ bad :: rest)) posts)))
    /\ filter is_verdict
         (fst (fst (each_chunk clock k
                      (chunk size (map VObj good ++ bad :: rest)) posts)))
       = []
    /\ Forall (fun c => Forall (fun e => e = Throw) (later c))
         (snd (fst (each_chunk clock k
                      (chunk size (map VObj good ++ bad :: rest)) posts))).
Proof.
  intros Hs Hbad. induction n as [|n IH]; intros good k posts Hle.
  - destruct good; [|simpl in Hle; lia].
    rewrite chunk_step by (assumption || discriminate).
    simpl app. destruct size as [|m]; [lia|]. simpl.
    rewrite (stamp_unstampable _ _ Hbad). simpl.
    repeat split; auto.
  - destruct (Nat.lt_ge_cases (length good) size) as [Hlt | Hge].
    + assert (Hchunk : exists tail more,
                 chunk size (map VObj good ++ bad :: rest)
                 = (map VObj good ++ bad :: tail) :: more).
      { rewrite chunk_step
          by (assumption || (destruct good; discriminate)).
        rewrite firstn_app, length_map.
        rewrite firstn_all2 by (rewrite length_map; lia).
        destruct (size - length good)%nat as [|d] eqn:Ed; [lia|].
        simpl. eauto. }
      destruct Hchunk as (tail & more & ->). cbn [postChunks].
      rewrite stampAll_unstampable by assumption. simpl.
      repeat split; auto. symmetry. now apply Nat.div_small.
    + assert (Hchunk :
               chunk size (map VObj good ++ bad :: rest)
               = map VObj (firstn size good)
                 :: chunk size (map VObj (skipn size good) ++ bad :: rest)).
      { rewrite chunk_step
          by (assumption || (destruct good; discriminate)).
        rewrite firstn_app, skipn_app, length_map.
        replace (size - length good)%nat with 0%nat by lia.
        simpl. now rewrite app_nil_r, firstn_map, skipn_map. }
      rewrite Hchunk. cbn [postChunks].
      rewrite stampAll_objects, length_map.
      specialize (IH (skipn size good)
                    (k + length (firstn size good))%nat (tl posts)).
      rewrite length_skipn in IH. specialize (IH ltac:(lia)).
      destruct (each_chunk clock (k + length (firstn size good))%nat
                  (chunk size (map VObj (skipn size good) ++ bad :: rest))
                  (tl posts)) as [[evs calls] done].
      simpl in IH. destruct IH as (-> & Hn & Ht & Hv & Hq).
      rewrite requestAssetData_issued. simpl.
      rewrite Hn, Hv. repeat split; auto.
      * replace (length good) with ((length good - size) + 1 * size)%nat
          at 2 by lia.
        rewrite Nat.div_add by lia. lia.
      * constructor; [apply requestAssetData_later | exact Hq].
Qed.

(** X9: when the instances hold an entry on which the assignment of line
    155 throws ([null], [undefined], a number, a string or a boolean), the
    handler posts the chunks that lie wholly before the chunk of that entry
    and no other, then throws, and prints neither verdict. *)
Theorem postInstances_aborts (size : nat) (w : collectionReplies)
    (good : list (list (string * value))) (bad : value) (rest : list value) :
  (0 < size)%nat ->
  unstampable bad = true ->
  length (filter is_post (send size w (map VObj good ++ bad :: rest)))
  = (length good / size)%nat
  /\ In Throw (send size w (map VObj good ++ bad :: rest))
  /\ filter is_verdict (send size w (map VObj good ++ bad :: rest)) = [].
Proof.
  intros Hs Hbad. unfold postInstances.
  pose proof (postChunks_aborts size (clock w) bad rest Hs Hbad (length good)
                good 0%nat (posts w) (le_n _)) as H.
  destruct (each_chunk (clock w) 0%nat
              (chunk size (map VObj good ++ bad :: rest)) (posts w))
    as [[evs calls] done].
  simpl in H. destruct H as (-> & Hn & Ht & Hv & Hq).
  destruct (throws_post_nothing _ (quiet_later _ Hq)) as (_ & Hp & _).
  assert (Hl : filter is_verdict (flat_map later calls) = []).
  { apply filter_nil_Forall.
    eapply Forall_impl; [|apply (quiet_later calls Hq)]. now intros e ->. }
  rewrite !filter_app, !length_app, Hp, Hv, Hl, Hn. simpl.
  repeat split; [lia|].
  right. right. apply in_or_app. now left.
Qed.

End UploadRuns.

(** ** More on the run *)

Section RunMore.

Variable JSON_parse : value -> option value.
Variable ToString : value -> string.
Variable localConfig : config.

Local Abbreviation run_of w := (migrate JSON_parse ToString localConfig w).
Local Abbreviation origin w := (originTokenRequest JSON_parse localConfig w).
Local Abbreviation destination w :=
  (destinationTokenRequest JSON_parse localConfig w).
Local Abbreviation listing ot dt w :=
  (listDomainObjects JSON_parse ToString localConfig ot dt w).

(** The run, phase by phase. *)
Lemma migrate_phases (w : world) :
  main (run_of w)
  = [Log RetrievingOriginToken;
     TokenRequest (originalUaaUrl localConfig ++ "/oauth/token")
       ("Basic " ++ originalUaaCredentials localConfig);
     Log RetrievingDestinationToken;
     TokenRequest (destinationUaaUrl localConfig ++ "/oauth/token")
       ("Basic " ++ destinationUaaCredentials localConfig)]
    ++ arrivals JSON_parse ToString localConfig w
    ++ (if is_resolved (settled (origin w))
           && is_resolved (settled (destination w))
        then main (listing (tokenOf ToString (origin w))
                     (tokenOf ToString (destination w)) w)
        else [])
  /\ pipelines (run_of w)
     = if is_resolved (settled (origin w))
          && is_resolved (settled (destination w))
       then pipelines (listing (tokenOf ToString (origin w))
                         (tokenOf ToString (destination w)) w)
       else [].
Proof.
  unfold migrate, arrivals, originTokenRequest, destinationTokenRequest.
  rewrite !(requestToken_issued JSON_parse).
  destruct (is_resolved _ && is_resolved _); cbn [main pipelines];
    rewrite ?app_nil_r, <- ?app_assoc; split; reflexivity.
Qed.

(** What the token callbacks leave behind is made of exceptions and of
    error lines. *)
Lemma arrivals_events (w : world) :
  Forall (fun e => e = Throw \/ is_err e = true)
    (arrivals JSON_parse ToString localConfig w).
Proof.
  apply tokenCallbacks_events; apply requestToken_later.
Qed.

(** No token callback prints an error unless a token promise is
    rejected. *)
Lemma arrivals_without_rejection (w : world) :
  is_rejected (settled (origin w)) = false ->
  is_rejected (settled (destination w)) = false ->
  Forall (fun e => e = Throw) (arrivals JSON_parse ToString localConfig w).
Proof.
  intros Ho Hd.
  apply tokenCallbacks_without_rejection; try apply requestToken_later;
    assumption.
Qed.

Lemma filter_quiet (f : event -> bool) (evs : list event) :
  f Throw = false ->
  Forall (fun e => e = Throw) evs -> filter f evs = [].
Proof.
  intros Hf H. apply filter_nil_Forall.
  eapply Forall_impl; [|exact H]. now intros e ->.
Qed.

(** X19: when a token promise is rejected, the error lines of the run are
    the error line of each rejected token promise and the credentials line,
    each once, and no other.  The credentials line never comes first: after
    one rejection it follows the error line of that token promise; after
    two it comes second or third, behind the error line of one token
    promise or of both. *)
Theorem credentials_error_once (w : world) :
  is_rejected (settled (origin w))
  || is_rejected (settled (destination w)) = true ->
  let errors := filter is_err (main (run_of w)) in
  if is_rejected (settled (origin w))
     && is_rejected (settled (destination w))
  then errors = [Err ErrorOriginToken; Err CheckCredentials;
                 Err ErrorDestinationToken]
       \/ errors = [Err ErrorOriginToken; Err ErrorDestinationToken;
                    Err CheckCredentials]
       \/ errors = [Err ErrorDestinationToken; Err CheckCredentials;
                    Err ErrorOriginToken]
       \/ errors = [Err ErrorDestinationToken; Err ErrorOriginToken;
                    Err CheckCredentials]
  else if is_rejected (settled (origin w))
       then errors = [Err ErrorOriginToken; Err CheckCredentials]
       else errors = [Err ErrorDestinationToken; Err CheckCredentials].
Proof.
  intros Hrej. destruct (migrate_phases w) as [-> _].
  assert (R : is_resolved (settled (origin w))
              && is_resolved (settled (destination w)) = false)
    by (destruct (settled (origin w)), (settled (destination w));
        try discriminate; reflexivity).
  rewrite R, app_nil_r. cbv zeta. rewrite filter_app.
  cbn [filter is_err app]. unfold arrivals.
  pose proof (requestToken_later JSON_parse (originalUaaUrl localConfig)
                (originalUaaCredentials localConfig) (originReply w)) as Lo.
  pose proof (requestToken_later JSON_parse (destinationUaaUrl localConfig)
                (destinationUaaCredentials localConfig)
                (destinationReply w)) as Ld.
  unfold originTokenRequest, destinationTokenRequest in *.
  set (o := requestToken JSON_parse (originalUaaUrl localConfig)
              (originalUaaCredentials localConfig) (originReply w)) in *.
  set (d := requestToken JSON_parse (destinationUaaUrl localConfig)
              (destinationUaaCredentials localConfig) (destinationReply w))
    in *.
  clearbody o d. clear R.
  assert (Fl : forall c : call value,
             Forall (fun e => e = Throw) (later c) ->
             filter is_err (later c) = [])
    by (intros c Hc; now apply filter_quiet).
  assert (Fh : forall f c,
             filter is_err (tokenHandlers ToString f c)
             = if is_rejected (settled c) then [Err f] else []).
  { intros f c. destruct (is_rejected (settled c)) eqn:E.
    - now rewrite tokenHandlers_rejected.
    - apply filter_quiet; [reflexivity | now apply tokenHandlers_quiet]. }
  destruct (tokenCallbacks_shape ToString w o d)
    as (a & b & fa & fb & oneTurn & Hab & ->).
  destruct Hab as [(-> & -> & -> & ->) | (-> & -> & -> & ->)];
    destruct oneTurn; rewrite !filter_app, !Fh, !Fl by assumption;
    destruct (is_rejected (settled o)), (is_rejected (settled d));
    try discriminate; simpl; auto.
Qed.

(** X22: the order of the error lines when both token promises are
    rejected.  When both calls of [request] throw: origin, destination,
    credentials.  When one of them throws: its error line, the credentials
    line, and later the error line of the other.  When both are rejected by
    their callbacks: the error line of the callback that fires first, then
    the credentials line and the error line of the second, in this order
    when the second callback fires in a later turn and in the other order
    when it fires in the same turn. *)
Theorem token_errors_in_turn_order (w : world) :
  is_rejected (settled (origin w)) = true ->
  is_rejected (settled (destination w)) = true ->
  filter is_err (main (run_of w))
  = if synchronous (originReply w) && synchronous (destinationReply w)
    then [Err ErrorOriginToken; Err ErrorDestinationToken;
          Err CheckCredentials]
    else if synchronous (originReply w)
    then [Err ErrorOriginToken; Err CheckCredentials;
          Err ErrorDestinationToken]
    else if synchronous (destinationReply w)
    then [Err ErrorDestinationToken; Err CheckCredentials;
          Err ErrorOriginToken]
    else
      let first :=
        if destinationFirst w
        then ErrorDestinationToken else ErrorOriginToken in
      let second :=
        if destinationFirst w
        then ErrorOriginToken else ErrorDestinationToken in
      if sameTurn w
      then [Err first; Err second; Err CheckCredentials]
      else [Err first; Err CheckCredentials; Err second].
Proof.
  intros Ro Rd. destruct (migrate_phases w) as [-> _].
  assert (R : is_resolved (settled (origin w))
              && is_resolved (settled (destination w)) = false)
    by (destruct (settled (origin w)); try discriminate; reflexivity).
  rewrite R, app_nil_r, filter_app.
  cbn [filter is_err app]. unfold arrivals.
  pose proof (requestToken_later JSON_parse (originalUaaUrl localConfig)
                (originalUaaCredentials localConfig) (originReply w)) as Lo.
  pose proof (requestToken_later JSON_parse (destinationUaaUrl localConfig)
                (destinationUaaCredentials localConfig)
                (destinationReply w)) as Ld.
  unfold originTokenRequest, destinationTokenRequest in *.
  set (o := requestToken JSON_parse (originalUaaUrl localConfig)
              (originalUaaCredentials localConfig) (originReply w)) in *.
  set (d := requestToken JSON_parse (destinationUaaUrl localConfig)
              (destinationUaaCredentials localConfig) (destinationReply w))
    in *.
  clearbody o d. clear R.
  apply (filter_quiet is_err _ eq_refl) in Lo, Ld.
  unfold tokenCallbacks.
  destruct (synchronous (originReply w)),
    (synchronous (destinationReply w)), (destinationFirst w), (sameTurn w);
    cbn [negb andb orb fst snd];
    rewrite !filter_app, Lo, Ld,
      !(tokenHandlers_rejected ToString _ _ Ro),
      !(tokenHandlers_rejected ToString _ _ Rd), Ro, Rd;
    reflexivity.
Qed.

(** The events of the listing phase: two lines, the [GET], and how it
    ends. *)
Lemma listDomainObjects_main (ot dt : string) (w : world) :
  exists quiet tail,
    main (listing ot dt w)
    = [Log OK; Log RetrievingDomainObjects;
       AssetRequest
         (assetOptions (originalAssetUrl localConfig)
            (originalAssetZoneId localConfig) ot None VUndefined)]
      ++ quiet ++ tail
    /\ Forall (fun e => e = Throw) quiet
    /\ (tail = [] \/ tail = [Throw] \/ tail = [Err ErrorListing]
        \/ exists domainObjects, tail = [Log (Found domainObjects)])
    /\ (reply_rejects JSON_parse (listingReply w) = true ->
        tail = [Err ErrorListing] /\ pipelines (listing ot dt w) = [])
    /\ (forall response,
           settled (requestAssetData JSON_parse EmptyString EmptyString
                      EmptyString None VUndefined (listingReply w))
           = Resolved response ->
           nullish (reply_body response) = true ->
           tail = [Throw] /\ pipelines (listing ot dt w) = []).
Proof.
  unfold listDomainObjects, reply_rejects.
  rewrite requestAssetData_issued.
  rewrite (settled_requestAssetData JSON_parse EmptyString
             (originalAssetUrl localConfig) EmptyString
             (originalAssetZoneId localConfig) EmptyString ot None None
             VUndefined VUndefined (listingReply w)).
  pose proof (requestAssetData_later JSON_parse (originalAssetUrl localConfig)
                (originalAssetZoneId localConfig) ot None VUndefined
                (listingReply w)) as Hq.
  set (l := requestAssetData JSON_parse (originalAssetUrl localConfig)
              (originalAssetZoneId localConfig) ot None VUndefined
              (listingReply w)) in *.
  exists (later l).
  destruct (settled l) as [response| |]; cbn [is_rejected].
  - destruct (nullish (reply_body response)) eqn:N; cbn [main pipelines];
      eexists; (split; [rewrite <- ?app_assoc; reflexivity|]);
      (split; [exact Hq|]); (split; [eauto 6|]);
      (split; [discriminate|]); intros r E; inversion E; subst r;
      rewrite N; [auto | discriminate].
  - cbn [main pipelines]. eexists.
    split; [rewrite <- ?app_assoc; reflexivity|].
    split; [exact Hq|]. split; [auto|]. split; [auto | discriminate].
  - cbn [main pipelines]. exists [].
    split; [now rewrite <- ?app_assoc, app_nil_r|].
    split; [exact Hq|]. split; [auto|]. split; discriminate.
Qed.

(** X10: whatever the identity providers answer, the run issues both token
    requests, the origin's first, and no other token request. *)
Theorem token_requests_issued (w : world) :
  filter is_token_request (main (run_of w))
  = [TokenRequest (originalUaaUrl localConfig ++ "/oauth/token")
       ("Basic " ++ originalUaaCredentials localConfig);
     TokenRequest (destinationUaaUrl localConfig ++ "/oauth/token")
       ("Basic " ++ destinationUaaCredentials localConfig)].
Proof.
  destruct (migrate_phases w) as [-> _].
  assert (Ha : filter is_token_request
                 (arrivals JSON_parse ToString localConfig w) = []).
  { apply filter_nil_Forall.
    eapply Forall_impl; [|apply arrivals_events].
    intros e [-> | He]; [reflexivity | now destruct e]. }
  rewrite !filter_app, Ha. simpl.
  destruct (is_resolved _ && is_resolved _); [|reflexivity].
  destruct (listDomainObjects_main (tokenOf ToString (origin w))
              (tokenOf ToString (destination w)) w)
    as (quiet & tail & -> & Hq & Ht & _).
  rewrite !filter_app, (filter_quiet _ _ eq_refl Hq). simpl.
  destruct Ht as [-> | [-> | [-> | [ds ->]]]]; reflexivity.
Qed.

(** X11: when neither token promise is rejected and one of them stays
    pending (its request hangs, or its 200 reply does not parse), the run
    stops there without a word: no error line, no [OK], no call of the
    record transport. *)
Theorem pending_token_stalls (w : world) :
  is_rejected (settled (origin w)) = false ->
  is_rejected (settled (destination w)) = false ->
  is_resolved (settled (origin w))
  && is_resolved (settled (destination w)) = false ->
  filter is_err (main (run_of w)) = []
  /\ ~ In (Log OK) (main (run_of w))
  /\ transport_calls (main (run_of w)) = 0%nat
  /\ pipelines (run_of w) = [].
Proof.
  intros Ho Hd Hr. destruct (migrate_phases w) as [-> ->]. rewrite Hr.
  pose proof (arrivals_without_rejection w Ho Hd) as Ha.
  rewrite app_nil_r. unfold transport_calls.
  rewrite !filter_app, !(filter_quiet _ _ eq_refl Ha). simpl.
  repeat split; try reflexivity.
  intros [H | [H | [H | [H | H]]]]; try discriminate.
  rewrite Forall_forall in Ha. specialize (Ha _ H). discriminate.
Qed.

(** X12: with both tokens at hand, a listing that the transport rejects
    ends the run: the listing error is the one error line and the last
    event, the listing is the one call of the record transport, and no
    collection is loaded. *)
Theorem listing_failure_is_fatal (w : world) :
  is_resolved (settled (origin w)) = true ->
  is_resolved (settled (destination w)) = true ->
  reply_rejects JSON_parse (listingReply w) = true ->
  filter is_err (main (run_of w)) = [Err ErrorListing]
  /\ last (main (run_of w)) Throw = Err ErrorListing
  /\ transport_calls (main (run_of w)) = 1%nat
  /\ pipelines (run_of w) = [].
Proof.
  intros Ho Hd Hl. destruct (migrate_phases w) as [-> ->].
  rewrite Ho, Hd. cbn [andb].
  assert (Ha : Forall (fun e => e = Throw)
                 (arrivals JSON_parse ToString localConfig w)).
  { apply arrivals_without_rejection.
    - destruct (settled (origin w)); now try discriminate.
    - destruct (settled (destination w)); now try discriminate. }
  destruct (listDomainObjects_main (tokenOf ToString (origin w))
              (tokenOf ToString (destination w)) w)
    as (quiet & tail & -> & Hq & _ & Hrej & _).
  destruct (Hrej Hl) as [-> ->]. unfold transport_calls.
  rewrite !filter_app, !(filter_quiet _ _ eq_refl Ha),
    !(filter_quiet _ _ eq_refl Hq).
  repeat split; try reflexivity.
  rewrite !app_assoc. apply last_last.
Qed.

(** X13: with both tokens at hand, a listing that resolves without a body
    makes its handler throw on [domainObjects.length]: no collection is
    loaded, and no error line is printed. *)
Theorem listing_without_body (w : world) (resp : option response)
    (b : value) :
  is_resolved (settled (origin w)) = true ->
  is_resolved (settled (destination w)) = true ->
  listingReply w = Calls false resp b ->
  match resp with Some r => not_2xx r | None => false end = false ->
  truthy b = false ->
  filter is_err (main (run_of w)) = []
  /\ last (main (run_of w)) (Log OK) = Throw
  /\ pipelines (run_of w) = [].
Proof.
  intros Ho Hd Hl H2 Hb. destruct (migrate_phases w) as [-> ->].
  rewrite Ho, Hd. cbn [andb].
  assert (Ha : Forall (fun e => e = Throw)
                 (arrivals JSON_parse ToString localConfig w)).
  { apply arrivals_without_rejection.
    - destruct (settled (origin w)); now try discriminate.
    - destruct (settled (destination w)); now try discriminate. }
  destruct (listDomainObjects_main (tokenOf ToString (origin w))
              (tokenOf ToString (destination w)) w)
    as (quiet & tail & -> & Hq & _ & _ & Hnull).
  destruct (Hnull {| reply_body := VNull;
                     reply_headers :=
                       match resp with
                       | Some r =>
                           match headers r with Some h => h | None => [] end
                       | None => []
                       end |}) as [-> ->].
  { rewrite Hl. simpl. now rewrite H2, Hb. }
  { reflexivity. }
  rewrite !filter_app, !(filter_quiet _ _ eq_refl Ha),
    !(filter_quiet _ _ eq_refl Hq).
  repeat split; try reflexivity.
  rewrite !app_assoc. apply last_last.
Qed.

End RunMore.

(** ** Where the requests go *)

Section Routing.

Variable JSON_parse : value -> option value.
Variable ToString : value -> string.
Variable localConfig : config.
Variables originalToken destinationToken : string.

Local Abbreviation well_routed :=
  (routed localConfig originalToken destinationToken).

Lemma routed_quiet (evs : list event) :
  Forall (fun e => e = Throw) evs -> Forall well_routed evs.
Proof. intros H. eapply Forall_impl; [|exact H]. now intros e ->. Qed.

Lemma requestAssetData_get_routed (url : string) (t : transport) :
  Forall well_routed
    (issued (requestAssetData JSON_parse url (originalAssetZoneId localConfig)
               originalToken None VUndefined t)
     ++ later (requestAssetData JSON_parse url
                 (originalAssetZoneId localConfig) originalToken None
                 VUndefined t)).
Proof.
  rewrite requestAssetData_issued. constructor.
  - left. repeat split.
  - apply routed_quiet, requestAssetData_later.
Qed.

Lemma getDomainObjectInstances_routed (target : value)
    (script : list transport) :
  forall (url : string) (instances : list value),
    Forall well_routed
      (fst (getDomainObjectInstances JSON_parse url
              (originalAssetZoneId localConfig) originalToken instances target
              script)).
Proof.
  induction script as [|t rest IH]; intros url instances; simpl.
  - constructor; [left; repeat split | constructor].
  - pose proof (requestAssetData_get_routed url t) as Ht.
    destruct (settled _) as [response| |]; simpl; try exact Ht.
    assert (Hseen :
             Forall well_routed
               (issued (requestAssetData JSON_parse url
                          (originalAssetZoneId localConfig) originalToken None
                          VUndefined t)
                ++ later (requestAssetData JSON_parse url
                            (originalAssetZoneId localConfig) originalToken
                            None VUndefined t)
                ++ [Log (Loaded (length (Array_concat instances
                                           (reply_body response))) target)])).
    { rewrite app_assoc. apply Forall_app. split; [exact Ht|].
      repeat constructor. }
    destruct (continuation response) as [link|]; simpl; [|exact Hseen].
    specialize (IH (nextUrl link)
                  (Array_concat instances (reply_body response))).
    destruct (getDomainObjectInstances _ _ _ _ _ _ rest) as [evs p].
    simpl in *. apply Forall_app. split; assumption.
Qed.

Lemma postChunks_routed (collection : value) (clock : nat -> Z)
    (chunks : list (list value)) :
  forall (k : nat) (posts : list transport),
    Forall well_routed
      (fst (fst (postChunks JSON_parse ToString localConfig destinationToken
                   collection clock k chunks posts))).
Proof.
  induction chunks as [|c chunks IH]; intros k posts; simpl.
  - constructor.
  - destruct (stampAll clock k c) as [stamped_c|]; simpl;
      [|repeat constructor].
    specialize (IH (k + length c)%nat (tl posts)).
    destruct (postChunks _ _ _ _ _ _ (k + length c)%nat chunks (tl posts))
      as [[evs calls] done].
    simpl in *. rewrite requestAssetData_issued. simpl.
    constructor; [exact I|]. constructor; [|exact IH].
    right. repeat split. now exists stamped_c.
Qed.

Lemma postInstances_routed (size : nat) (collection : value)
    (w : collectionReplies) (instances : list value) :
  Forall well_routed
    (postInstances JSON_parse ToString localConfig size destinationToken
       collection w instances).
Proof.
  unfold postInstances.
  pose proof (postChunks_routed collection (clock w) (chunk size instances)
                0%nat (posts w)) as Hr.
  pose proof (postChunks_no_get JSON_parse ToString localConfig
                destinationToken collection (clock w) (chunk size instances)
                0%nat (posts w)) as [_ Hq].
  destruct (postChunks _ _ _ _ _ _ 0%nat (chunk size instances) (posts w))
    as [[evs calls] done].
  simpl in *. constructor; [exact I|]. constructor; [exact I|].
  apply Forall_app. split; [exact Hr|].
  eapply Forall_impl;
    [|apply (verdict_posts_nothing (length instances) (together w)
               (existsb synchronous (firstn (length calls) (posts w)))
               calls done Hq)].
  intros e He. now destruct e.
Qed.

Lemma migrateDomainObject_routed (domainObject : value)
    (w : collectionReplies) (evs : list event) :
  migrateDomainObject JSON_parse ToString localConfig originalToken
    destinationToken domainObject w = Some evs ->
  Forall well_routed evs.
Proof.
  unfold migrateDomainObject, loadInstances.
  destruct (member domainObject "collection") as [collection|];
    [|discriminate].
  pose proof (getDomainObjectInstances_routed
                match member domainObject "count" with
                | Some count => count
                | None => VUndefined
                end
                (pages w)
                (originDomainObjectUrl ToString localConfig collection) [])
    as Hr.
  destruct (getDomainObjectInstances _ _ _ _ _ _ (pages w)) as [es p].
  simpl in *. intros E. inversion E. subst evs.
  constructor; [exact I|]. apply Forall_app. split; [exact Hr|].
  destruct p; [apply postInstances_routed | constructor..].
Qed.

Lemma eachDomainObject_routed (ws : nat -> collectionReplies)
    (domainObjects : list value) :
  forall k,
    Forall (Forall well_routed)
      (eachDomainObject JSON_parse ToString localConfig originalToken
         destinationToken domainObjects ws k).
Proof.
  induction domainObjects as [|d ds IH]; intros k; simpl; [constructor|].
  destruct (migrateDomainObject _ _ _ _ _ d (ws k)) as [evs|] eqn:E.
  - constructor; [now apply (migrateDomainObject_routed d (ws k)) | apply IH].
  - repeat constructor.
Qed.

Lemma listDomainObjects_routed (w : world) :
  Forall well_routed
    (main (listDomainObjects JSON_parse ToString localConfig originalToken
             destinationToken w))
  /\ Forall (Forall well_routed)
       (pipelines (listDomainObjects JSON_parse ToString localConfig
                     originalToken destinationToken w)).
Proof.
  destruct (listDomainObjects_main JSON_parse ToString localConfig
              originalToken destinationToken w)
    as (quiet & tail & -> & Hq & Ht & _).
  split.
  - constructor; [exact I|]. constructor; [exact I|].
    constructor; [left; repeat split|].
    apply Forall_app. split; [now apply routed_quiet|].
    destruct Ht as [-> | [-> | [-> | [ds ->]]]]; repeat constructor.
  - unfold listDomainObjects.
    destruct (settled _) as [response| |]; [|constructor..].
    destruct (nullish (reply_body response)); [constructor|].
    apply eachDomainObject_routed.
Qed.

End Routing.

Section RoutedRun.

Variable JSON_parse : value -> option value.
Variable ToString : value -> string.
Variable localConfig : config.

(** X14: every call of the record transport in a run is either a [GET]
    with the origin zone and the origin token (no body, no force-write
    directive) or a [POST] with the destination zone and the destination
    token that carries the force-write directive and an array as JSON body:
    nothing is written to the origin and nothing is read from the
    destination. *)
Theorem requests_routed (w : world) :
  Forall
    (routed localConfig
       (tokenOf ToString (originTokenRequest JSON_parse localConfig w))
       (tokenOf ToString (destinationTokenRequest JSON_parse localConfig w)))
    (main (migrate JSON_parse ToString localConfig w)
     ++ concat (pipelines (migrate JSON_parse ToString localConfig w))).
Proof.
  destruct (migrate_phases JSON_parse ToString localConfig w) as [-> ->].
  destruct (listDomainObjects_routed JSON_parse ToString localConfig
              (tokenOf ToString (originTokenRequest JSON_parse localConfig w))
              (tokenOf ToString
                 (destinationTokenRequest JSON_parse localConfig w)) w)
    as [Hm Hp].
  apply Forall_app. split.
  - repeat constructor. apply Forall_app. split.
    + eapply Forall_impl; [|apply arrivals_events].
      intros e [-> | He]; [exact I | now destruct e].
    + destruct (is_resolved _ && is_resolved _); [exact Hm | constructor].
  - destruct (is_resolved _ && is_resolved _); [|constructor].
    apply Forall_concat. exact Hp.
Qed.

End RoutedRun.

(** ** More on the collections *)

Section Collections.

Variable JSON_parse : value -> option value.
Variable ToString : value -> string.
Variable localConfig : config.
Variables originalToken destinationToken : string.

Local Abbreviation pipeline_of domainObject w :=
  (migrateDomainObject JSON_parse ToString localConfig originalToken
     destinationToken domainObject w).

Local Abbreviation loop_over domainObjects ws k :=
  (eachDomainObject JSON_parse ToString localConfig originalToken
     destinationToken domainObjects ws k).

Lemma member_nullish (v : value) (k : string) :
  member v k = None <-> nullish v = true.
Proof.
  destruct v; simpl; try (split; discriminate); try tauto.
  destruct (assoc k props); split; discriminate.
Qed.

Lemma migrateDomainObject_nullish (domainObject : value)
    (w : collectionReplies) :
  pipeline_of domainObject w = None <-> nullish domainObject = true.
Proof.
  rewrite migrateDomainObject_None. apply member_nullish.
Qed.

(** X15: the loop of line 142 gives a pipeline to each domain object that
    comes before the first [null] entry of the listing; that entry ends the
    loop with an exception, and the domain objects after it are never
    loaded. *)
Theorem eachDomainObject_stops (ws : nat -> collectionReplies)
    (before : list value) (bad : value) (after : list value) :
  Forall (fun d => nullish d = false) before ->
  nullish bad = true ->
  forall k,
    loop_over (before ++ bad :: after) ws k
    = loop_over before ws k ++ [[Throw]]
    /\ length (loop_over before ws k) = length before.
Proof.
  intros Hb Hbad. induction Hb as [|d ds Hd _ IH]; intros k; simpl.
  - apply migrateDomainObject_nullish with (w := ws k) in Hbad.
    rewrite Hbad. split; reflexivity.
  - destruct (pipeline_of d (ws k)) as [evs|] eqn:E.
    + destruct (IH (S k)) as [-> Hlen]. simpl. now rewrite Hlen.
    + apply migrateDomainObject_nullish in E. congruence.
Qed.

(** X16: a collection whose one page is a successful reply with no body
    is never uploaded: the paginator resolves with the single entry [null],
    the handler prints that one instance is loaded and throws on the
    assignment of line 155 before any [POST], and no verdict is printed. *)
Theorem bodyless_page_never_uploaded (domainObject collection : value)
    (w : collectionReplies) (resp : response) (b : value) :
  member domainObject "collection" = Some collection ->
  pages w = [Calls false (Some resp) b] ->
  not_2xx resp = false ->
  truthy b = false ->
  match headers resp with Some hs => assoc "link" hs | None => None end
  = None ->
  exists evs,
    pipeline_of domainObject w = Some evs
    /\ In (Log (FinishedLoading 1)) evs
    /\ last evs (Log OK) = Throw
    /\ filter is_post evs = []
    /\ filter is_verdict evs = [].
Proof.
  intros Hm Hp H2 Hb Hl.
  unfold migrateDomainObject, loadInstances. rewrite Hm, Hp. simpl.
  rewrite H2, Hb. simpl. unfold continuation. simpl.
  assert (Hc : assoc "link"
                 match headers resp with Some h => h | None => [] end = None)
    by (destruct (headers resp); [exact Hl | reflexivity]).
  rewrite Hc. simpl. unfold postInstances, queryLimit.
  rewrite chunk_step by (lia || discriminate).
  simpl. simp chunk. simpl.
  eexists. split; [reflexivity|]. simpl. repeat split; auto 10.
Qed.

End Collections.

(** ** A collection from end to end *)

Section Migrated.

Variable JSON_parse : value -> option value.
Variable ToString : value -> string.
Variable localConfig : config.
Variables originalToken destinationToken : string.

Lemma posted_not_post (e : event) : is_post e = false -> posted e = [].
Proof.
  destruct e as [| r | | |]; simpl; try reflexivity.
  now intros ->.
Qed.

Lemma reads_post_nothing (evs : list event) :
  Forall (fun e => is_post e = false /\ is_err e = false) evs ->
  flat_map posted evs = [] /\ filter is_err evs = [].
Proof.
  induction 1 as [|e evs [Hp He] _ [IH1 IH2]]; simpl; [auto|].
  now rewrite (posted_not_post e Hp), He, IH1, IH2.
Qed.

(** The paginator on pages: what it resolves with and how many [GET]s it
    makes. *)
Lemma paginated_run (zoneId token : string) (target : value)
    (script : list transport) (records : list (list value)) :
  paginated JSON_parse script records ->
  forall (url : string) (instances : list value),
    snd (getDomainObjectInstances JSON_parse url zoneId token instances target
           script)
    = Resolved (instances ++ concat records)
    /\ length (filter is_get
                 (fst (getDomainObjectInstances JSON_parse url zoneId token
                         instances target script)))
       = length records.
Proof.
  induction 1 as [t recs Hs | t recs link ts rs Hs Hp IH];
    intros url instances.
  - destruct (requestAssetData_serves JSON_parse zoneId token url t recs None
                Hs) as (r & hs & E & Hc).
    pose proof (requestAssetData_issued JSON_parse url zoneId token None
                  VUndefined t) as Hi.
    rewrite E in Hi. simpl in Hi. inversion Hi. subst r.
    simpl. rewrite E. simpl. rewrite Hc. simpl.
    now rewrite app_nil_r.
  - destruct (requestAssetData_serves JSON_parse zoneId token url t recs
                (Some link) Hs) as (r & hs & E & Hc).
    pose proof (requestAssetData_issued JSON_parse url zoneId token None
                  VUndefined t) as Hi.
    rewrite E in Hi. simpl in Hi. inversion Hi. subst r.
    simpl. rewrite E. simpl. rewrite Hc.
    specialize (IH (nextUrl link) (instances ++ recs)).
    destruct (getDomainObjectInstances JSON_parse (nextUrl link) zoneId token
                (instances ++ recs) target ts) as [evs p].
    simpl in *. destruct IH as [-> Hn].
    rewrite <- app_assoc, Hn. split; reflexivity.
Qed.

Lemma postChunks_no_err (collection : value) (clock : nat -> Z)
    (chunks : list (list value)) :
  forall (k : nat) (posts : list transport),
    filter is_err
      (fst (fst (postChunks JSON_parse ToString localConfig destinationToken
                   collection clock k chunks posts))) = [].
Proof.
  induction chunks as [|c chunks IH]; intros k posts; simpl; [reflexivity|].
  destruct (stampAll clock k c) as [stamped_c|]; simpl; [|reflexivity].
  specialize (IH (k + length c)%nat (tl posts)).
  destruct (postChunks _ _ _ _ _ _ (k + length c)%nat chunks (tl posts))
    as [[evs calls] done].
  simpl in *. rewrite requestAssetData_issued. simpl. exact IH.
Qed.

(** X17: a collection whose replies are pages of objects and whose [POST]s
    all get a reply that makes the transport resolve is migrated in full:
    one [GET] per page, then the records of all pages in page order, each
    stamped, in chunks of [queryLimit]; no error line, and the line that
    reports all of them posted comes last. *)
Theorem collection_migrated (domainObject collection : value)
    (w : collectionReplies) (rss : list (list (list (string * value)))) :
  member domainObject "collection" = Some collection ->
  paginated JSON_parse (pages w) (map (map VObj) rss) ->
  forallb (reply_resolves JSON_parse)
    (first_replies (ceil_div (length (concat rss)) queryLimit) (posts w))
  = true ->
  exists evs,
    migrateDomainObject JSON_parse ToString localConfig originalToken
      destinationToken domainObject w = Some evs
    /\ length (filter is_get evs) = length rss
    /\ flat_map posted evs
       = chunk queryLimit (stamped (clock w) 0 (concat rss))
    /\ filter is_err evs = []
    /\ last evs Throw = Log (FinishedPosting (length (concat rss))).
Proof.
  intros Hm Hp Hr.
  assert (Hq : (0 < queryLimit)%nat) by (unfold queryLimit; lia).
  unfold migrateDomainObject, loadInstances. rewrite Hm.
  destruct (paginated_run (originalAssetZoneId localConfig) originalToken
              match member domainObject "count" with
              | Some count => count
              | None => VUndefined
              end
              (pages w) _ Hp
              (originDomainObjectUrl ToString localConfig collection) [])
    as [Hres Hget].
  pose proof (getDomainObjectInstances_reads JSON_parse
                (originalAssetZoneId localConfig) originalToken
                match member domainObject "count" with
                | Some count => count
                | None => VUndefined
                end
                (pages w)
                (originDomainObjectUrl ToString localConfig collection) [])
    as Hreads.
  destruct (getDomainObjectInstances _ _ _ _ _ _ (pages w)) as [es p].
  simpl in Hres, Hget, Hreads. subst p.
  destruct (reads_post_nothing es Hreads) as [Hes_posted Hes_err].
  rewrite <- concat_map. rewrite length_map in Hget.
  eexists. split; [reflexivity|].
  set (records := concat rss) in *.
  pose proof (postInstances_no_get JSON_parse ToString localConfig
                destinationToken collection queryLimit w (map VObj records))
    as Hnoget.
  destruct (postInstances_posted JSON_parse ToString localConfig
              destinationToken collection queryLimit w records)
    as [Hposted _].
  cbn [filter is_get flat_map posted is_err].
  rewrite !filter_app, flat_map_app, Hnoget, Hposted, Hes_posted, Hes_err,
    app_nil_r, Hget.
  split; [reflexivity|]. split; [reflexivity|].
  (* what the upload prints *)
  unfold postInstances in *. rewrite chunk_map in *.
  pose proof (postChunks_objects JSON_parse ToString localConfig
                destinationToken collection (clock w)
                (chunk queryLimit records) 0%nat (posts w)) as H.
  pose proof (postChunks_objects_calls JSON_parse ToString localConfig
                destinationToken collection (clock w)
                (chunk queryLimit records) 0%nat (posts w)) as H'.
  pose proof (postChunks_no_err collection (clock w)
                (map (map VObj) (chunk queryLimit records)) 0%nat (posts w))
    as Herr.
  pose proof (postChunks_thrown JSON_parse ToString localConfig
                destinationToken collection (clock w)
                (map (map VObj) (chunk queryLimit records)) 0%nat (posts w))
    as Ht.
  destruct (postChunks _ _ _ _ _ _ 0%nat
              (map (map VObj) (chunk queryLimit records)) (posts w))
    as [[evs calls] done].
  simpl in H, H', Herr, Ht. destruct H as (-> & _ & _ & Hquiet).
  destruct H' as (_ & He & Hf).
  rewrite (chunk_length queryLimit records Hq) in He, Hf.
  rewrite Hr in Hf.
  assert (Hno : existsb (fun c => is_rejected (settled c)) calls = false).
  { destruct (existsb _ calls) eqn:Ex; [|reflexivity].
    apply existsb_exists in Ex. destruct Ex as (c & Hin & Hc).
    rewrite forallb_forall in Hf. specialize (Hf c Hin).
    destruct (settled c); discriminate. }
  assert (Hth : existsb synchronous (firstn (length calls) (posts w))
                = false)
    by (destruct (existsb synchronous _);
        [specialize (Ht eq_refl); congruence | reflexivity]).
  rewrite Hth, Hf, length_map.
  pose proof (postCallbacks_quiet (together w) calls Hquiet Hno 0%nat false)
    as Hcb.
  split.
  - cbn [filter is_err]. rewrite !filter_app, Herr.
    rewrite (filter_quiet is_err _ eq_refl Hcb).
    reflexivity.
  - rewrite app_comm_cons, !app_assoc. apply last_last.
Qed.

End Migrated.

(** ** Tokens that are no tokens *)

Section Tokens.

Variable JSON_parse : value -> option value.
Variable ToString : value -> string.
Variable localConfig : config.

(** X18: a token response that is an object without an [access_token] is
    not refused: once both token promises have resolved, the run lists the
    collections with [Bearer] followed by the conversion of [undefined] as
    its authorization. *)
Theorem missing_access_token_accepted (w : world)
    (props : list (string * value)) :
  settled (originTokenRequest JSON_parse localConfig w)
  = Resolved (VObj props) ->
  assoc "access_token" props = None ->
  is_resolved (settled (destinationTokenRequest JSON_parse localConfig w))
  = true ->
  In (AssetRequest
        (assetOptions (originalAssetUrl localConfig)
           (originalAssetZoneId localConfig)
           ("Bearer " ++ ToString VUndefined) None VUndefined))
    (main (migrate JSON_parse ToString localConfig w)).
Proof.
  intros Ho Ha Hd.
  destruct (migrate_phases JSON_parse ToString localConfig w) as [-> _].
  rewrite Ho, Hd. cbn [is_resolved andb].
  destruct (listDomainObjects_main JSON_parse ToString localConfig
              (tokenOf ToString (originTokenRequest JSON_parse localConfig w))
              (tokenOf ToString
                 (destinationTokenRequest JSON_parse localConfig w)) w)
    as (quiet & tail & -> & _).
  assert (Ht : tokenOf ToString (originTokenRequest JSON_parse localConfig w)
               = ("Bearer " ++ ToString VUndefined)%string).
  { unfold tokenOf, bearer. rewrite Ho. simpl. now rewrite Ha. }
  rewrite Ht. apply in_or_app. right. apply in_or_app. right.
  apply in_or_app. left. simpl. auto.
Qed.

End Tokens.

(** * Further examples *)

Ltac page_with_status digits :=
  eexists _, _, _;
  split; [reflexivity|];
  split; [exists digits; reflexivity|];
  split; [reflexivity|];
  split; [reflexivity|];
  split; [reflexivity|].

Lemma nextUrl_unclosed_witness :
  nextUrl Sample.unclosed_link = "rel=next; <".
Proof.
  exact (nextUrl_unclosed Sample.unclosed_link eq_refl).
Defined.

Lemma three_digit_statuses_witness :
  not_2xx {| statusCode := 404; headers := None |} = false
  <-> 200 <= 404 <= 299.
Proof.
  apply (three_digit_statuses 404 None). lia.
Defined.

Lemma getDomainObjectInstances_endless_witness :
  snd (getDomainObjectInstances Sample.JSON_parse "start" "zone" "token" []
         (VNum 2) Sample.endless_pages) = Pending
  /\ transport_calls
       (fst (getDomainObjectInstances Sample.JSON_parse "start" "zone"
               "token" [] (VNum 2) Sample.endless_pages)) = 3%nat.
Proof.
  apply (getDomainObjectInstances_endless Sample.JSON_parse "zone" "token"
           (VNum 2) Sample.endless_pages).
  apply Forall_cons; [|apply Forall_cons; [|apply Forall_nil]].
  - exists [Sample.sensor1], Sample.next_link.
    page_with_status "00"%string. split; [reflexivity | discriminate].
  - exists [Sample.sensor2], Sample.next_link.
    page_with_status "00"%string. split; [reflexivity | discriminate].
Defined.

Lemma getDomainObjectInstances_follows_witness :
  requested
    (fst (getDomainObjectInstances Sample.JSON_parse "start" "zone" "token" []
            (VNum 2) (pages Sample.two_pages ++ [])))
  = ["start"%string;
     "https://asset.origin/sensors?pageSize=1000&cursor="%string].
Proof.
  apply (getDomainObjectInstances_follows Sample.JSON_parse "zone" "token"
           (VNum 2) (pages Sample.two_pages) [Sample.next_link]).
  apply linked_more with (records := [Sample.sensor1]);
    [|apply linked_last with (records := [Sample.sensor2])];
    page_with_status "00"%string.
  - split; [reflexivity | discriminate].
  - reflexivity.
Defined.

Lemma getDomainObjectInstances_progress_witness :
  loaded
    (fst (getDomainObjectInstances Sample.JSON_parse "start" "zone" "token"
            [Sample.sensor1] (VNum 3) (pages Sample.two_pages ++ [])))
  = [2%nat; 3%nat].
Proof.
  apply (getDomainObjectInstances_progress Sample.JSON_parse "zone" "token"
           (VNum 3) (pages Sample.two_pages)
           [[Sample.sensor1]; [Sample.sensor2]]).
  apply paginated_more with (link := Sample.next_link);
    [|apply paginated_last];
    page_with_status "00"%string.
  - split; [reflexivity | discriminate].
  - reflexivity.
Defined.

Lemma postInstances_timestamps_witness :
  exists props,
    nth 1
      (concat
         (flat_map posted
            (postInstances Sample.JSON_parse Sample.ToString
               Sample.localConfig 2 "Bearer t" (VStr "sensors")
               Sample.one_page (map VObj Sample.three_records))))
      VUndefined = VObj props
    /\ assoc "migrationDate" props = Some (VDate (Sample.tick 1))
    /\ map fst props = ["uri"%string; "migrationDate"%string].
Proof.
  apply (postInstances_timestamps Sample.JSON_parse Sample.ToString
           Sample.localConfig "Bearer t" (VStr "sensors") 2 Sample.one_page
           Sample.three_records 1); simpl; lia.
Defined.

Lemma postInstances_verdict_witness :
  filter is_verdict
    (postInstances Sample.JSON_parse Sample.ToString Sample.localConfig 2
       "Bearer t" (VStr "sensors") Sample.second_post_refused
       (map VObj Sample.three_records))
  = [Err ErrorPosting].
Proof.
  exact (postInstances_verdict Sample.JSON_parse Sample.ToString
           Sample.localConfig "Bearer t" (VStr "sensors") 2
           Sample.second_post_refused Sample.three_records
           (Nat.lt_0_succ 1)).
Defined.

Lemma postInstances_aborts_witness :
  length
    (filter is_post
       (postInstances Sample.JSON_parse Sample.ToString Sample.localConfig 2
          "Bearer t" (VStr "sensors") Sample.one_page
          (map VObj Sample.three_records ++ VNull :: [Sample.sensor1])))
  = 1%nat
  /\ In Throw
       (postInstances Sample.JSON_parse Sample.ToString Sample.localConfig 2
          "Bearer t" (VStr "sensors") Sample.one_page
          (map VObj Sample.three_records ++ VNull :: [Sample.sensor1]))
  /\ filter is_verdict
       (postInstances Sample.JSON_parse Sample.ToString Sample.localConfig 2
          "Bearer t" (VStr "sensors") Sample.one_page
          (map VObj Sample.three_records ++ VNull :: [Sample.sensor1]))
     = [].
Proof.
  exact (postInstances_aborts Sample.JSON_parse Sample.ToString
           Sample.localConfig "Bearer t" (VStr "sensors") 2 Sample.one_page
           Sample.three_records VNull [Sample.sensor1] (Nat.lt_0_succ 1)
           eq_refl).
Defined.

Lemma pending_token_stalls_witness :
  filter is_err
    (main (migrate Sample.JSON_parse Sample.ToString Sample.localConfig
             Sample.unparseable_token)) = []
  /\ ~ In (Log OK)
         (main (migrate Sample.JSON_parse Sample.ToString Sample.localConfig
                  Sample.unparseable_token))
  /\ transport_calls
       (main (migrate Sample.JSON_parse Sample.ToString Sample.localConfig
                Sample.unparseable_token)) = 0%nat
  /\ pipelines (migrate Sample.JSON_parse Sample.ToString Sample.localConfig
                  Sample.unparseable_token) = [].
Proof.
  exact (pending_token_stalls Sample.JSON_parse Sample.ToString
           Sample.localConfig Sample.unparseable_token eq_refl eq_refl
           eq_refl).
Defined.

Lemma listing_failure_is_fatal_witness :
  filter is_err
    (main (migrate Sample.JSON_parse Sample.ToString Sample.localConfig
             Sample.listing_refused)) = [Err ErrorListing]
  /\ last (main (migrate Sample.JSON_parse Sample.ToString Sample.localConfig
                   Sample.listing_refused)) Throw = Err ErrorListing
  /\ transport_calls
       (main (migrate Sample.JSON_parse Sample.ToString Sample.localConfig
                Sample.listing_refused)) = 1%nat
  /\ pipelines (migrate Sample.JSON_parse Sample.ToString Sample.localConfig
                  Sample.listing_refused) = [].
Proof.
  exact (listing_failure_is_fatal Sample.JSON_parse Sample.ToString
           Sample.localConfig Sample.listing_refused eq_refl eq_refl eq_refl).
Defined.

Lemma listing_without_body_witness :
  filter is_err
    (main (migrate Sample.JSON_parse Sample.ToString Sample.localConfig
             Sample.listing_empty)) = []
  /\ last (main (migrate Sample.JSON_parse Sample.ToString Sample.localConfig
                   Sample.listing_empty)) (Log OK) = Throw
  /\ pipelines (migrate Sample.JSON_parse Sample.ToString Sample.localConfig
                  Sample.listing_empty) = [].
Proof.
  exact (listing_without_body Sample.JSON_parse Sample.ToString
           Sample.localConfig Sample.listing_empty
           (Some {| statusCode := 200; headers := Some [] |})
           (VStr EmptyString) eq_refl eq_refl eq_refl eq_refl eq_refl).
Defined.

Lemma eachDomainObject_stops_witness :
  length
    (eachDomainObject Sample.JSON_parse Sample.ToString Sample.localConfig
       "Bearer t" "Bearer t"
       ([Sample.collection_a] ++ VNull :: [Sample.collection_b])
       (fun _ => Sample.one_page) 0) = 2%nat.
Proof.
  destruct (eachDomainObject_stops Sample.JSON_parse Sample.ToString
              Sample.localConfig "Bearer t" "Bearer t"
              (fun _ => Sample.one_page) [Sample.collection_a] VNull
              [Sample.collection_b]
              (Forall_cons (P := fun d => nullish d = false)
                 Sample.collection_a eq_refl (Forall_nil _))
              eq_refl 0) as [E Hl].
  rewrite E, length_app, Hl. reflexivity.
Defined.

Lemma bodyless_page_never_uploaded_witness :
  exists evs,
    migrateDomainObject Sample.JSON_parse Sample.ToString Sample.localConfig
      "Bearer t" "Bearer t" Sample.sensors Sample.bodyless = Some evs
    /\ In (Log (FinishedLoading 1)) evs
    /\ last evs (Log OK) = Throw
    /\ filter is_post evs = []
    /\ filter is_verdict evs = [].
Proof.
  exact (bodyless_page_never_uploaded Sample.JSON_parse Sample.ToString
           Sample.localConfig "Bearer t" "Bearer t" Sample.sensors
           (VStr "sensors") Sample.bodyless
           {| statusCode := 204; headers := Some [] |} (VStr EmptyString)
           eq_refl eq_refl eq_refl eq_refl eq_refl).
Defined.

Lemma collection_migrated_witness :
  exists evs,
    migrateDomainObject Sample.JSON_parse Sample.ToString Sample.localConfig
      "Bearer t" "Bearer t" Sample.sensors Sample.two_pages = Some evs
    /\ length (filter is_get evs) = 2%nat
    /\ flat_map posted evs
       = [[VObj [("uri", VStr "/sensors/1"); ("migrationDate", VDate 1000)];
           VObj [("uri", VStr "/sensors/2"); ("migrationDate", VDate 1001)]]]
    /\ filter is_err evs = []
    /\ last evs Throw = Log (FinishedPosting 2).
Proof.
  refine (collection_migrated Sample.JSON_parse Sample.ToString
            Sample.localConfig "Bearer t" "Bearer t" Sample.sensors
            (VStr "sensors") Sample.two_pages
            [[[("uri"%string, VStr "/sensors/1")]];
             [[("uri"%string, VStr "/sensors/2")]]]
            eq_refl _ eq_refl).
  apply paginated_more with (link := Sample.next_link);
    [|apply paginated_last];
    page_with_status "00"%string.
  - split; [reflexivity | discriminate].
  - reflexivity.
Defined.

Lemma missing_access_token_accepted_witness :
  In (AssetRequest
        (assetOptions "https://asset.origin" "zone-origin" "Bearer undefined"
           None VUndefined))
    (main (migrate Sample.JSON_parse Sample.ToString Sample.localConfig
             Sample.token_without_field)).
Proof.
  exact (missing_access_token_accepted Sample.JSON_parse Sample.ToString
           Sample.localConfig Sample.token_without_field [] eq_refl eq_refl
           eq_refl).
Defined.

(** Both identity providers answer 401 and the two callbacks fire in the
    same turn: the credentials line comes after both error lines. *)
Lemma credentials_error_once_witness :
  is_rejected
    (settled (originTokenRequest Sample.JSON_parse Sample.localConfig
                Sample.both_unauthorized))
  || is_rejected
       (settled (destinationTokenRequest Sample.JSON_parse Sample.localConfig
                   Sample.both_unauthorized)) = true
  /\ (let errors :=
        filter is_err
          (main (migrate Sample.JSON_parse Sample.ToString Sample.localConfig
                   Sample.both_unauthorized)) in
      errors = [Err ErrorOriginToken; Err CheckCredentials;
                Err ErrorDestinationToken]
      \/ errors = [Err ErrorOriginToken; Err ErrorDestinationToken;
                   Err CheckCredentials]
      \/ errors = [Err ErrorDestinationToken; Err CheckCredentials;
                   Err ErrorOriginToken]
      \/ errors = [Err ErrorDestinationToken; Err ErrorOriginToken;
                   Err CheckCredentials]).
Proof.
  split; [reflexivity|].
  exact (credentials_error_once Sample.JSON_parse Sample.ToString
           Sample.localConfig Sample.both_unauthorized eq_refl).
Defined.

Lemma pagination_failure_silent_witness :
  Forall (fun e => is_post e = false /\ is_err e = false)
    [Log (LoadingData (VStr "sensors"));
     AssetRequest
       (assetOptions "https://asset.origin/sensors?pageSize=1000"
          "zone-origin" "Bearer t" None VUndefined);
     Log (Loaded 1 (VNum 2));
     AssetRequest
       (assetOptions "https://asset.origin/sensors?pageSize=1000&cursor="
          "zone-origin" "Bearer t" None VUndefined)].
Proof.
  exact (pagination_failure_silent Sample.JSON_parse Sample.ToString
           Sample.localConfig "Bearer t" "Bearer t" Sample.sensors
           Sample.second_page_fails _ eq_refl eq_refl).
Defined.

(** Both calls of [request] throw: the handlers queued by the script run in
    the order in which it queued them. *)
Lemma token_errors_in_turn_order_witness :
  is_rejected
    (settled (originTokenRequest Sample.JSON_parse Sample.localConfig
                Sample.requests_throw)) = true
  /\ is_rejected
       (settled (destinationTokenRequest Sample.JSON_parse Sample.localConfig
                   Sample.requests_throw)) = true
  /\ filter is_err
       (main (migrate Sample.JSON_parse Sample.ToString Sample.localConfig
                Sample.requests_throw))
     = [Err ErrorOriginToken; Err ErrorDestinationToken;
        Err CheckCredentials].
Proof.
  split; [reflexivity|]. split; [reflexivity|].
  exact (token_errors_in_turn_order Sample.JSON_parse Sample.ToString
           Sample.localConfig Sample.requests_throw eq_refl eq_refl).
Defined.


(** ** The paginator against a server *)

Section Served.

Variable JSON_parse : value -> option value.
Variables zoneId token : string.
Variable target : value.
Variable server : string -> transport.

Lemma requested_quiet (evs : list event) :
  Forall (fun e => e = Throw) evs -> requested evs = [].
Proof. induction 1 as [|e evs -> _ IH]; simpl; auto. Qed.

(** C4 (the code against a server): a server holds a page at [url] whose
    link header encloses the URL [u] of its second and last page, and
    nothing that the transport accepts at [u] without its last character.
    The paginator asks for [url] and then for [u] without its last
    character, gets the server's replies to these two, and never resolves:
    its promise stays pending instead of resolving with the records of the
    two pages. *)
Theorem getDomainObjectInstances_misses_linked_page (url pre u post : string)
    (instances records records' : list value) (n : nat) :
  serves JSON_parse (server url) records (Some (link_value pre u post)) ->
  serves JSON_parse (server u) records' None ->
  JsString.mem "<" pre = false ->
  JsString.mem ">" pre = false ->
  JsString.mem ">" u = false ->
  u <> EmptyString ->
  reply_rejects JSON_parse (server (JsString.chop u)) = true ->
  (2 <= n)%nat ->
  between_brackets (link_value pre u post) = Some u
  /\ served JSON_parse server n url = [server url; server (JsString.chop u)]
  /\ requested
       (fst (getDomainObjectInstances JSON_parse url zoneId token instances
               target (served JSON_parse server n url)))
     = [url; JsString.chop u]
  /\ JsString.chop u <> u
  /\ snd (getDomainObjectInstances JSON_parse url zoneId token instances
            target (served JSON_parse server n url))
     = Pending
  /\ snd (getDomainObjectInstances JSON_parse url zoneId token instances
            target (served JSON_parse server n url))
     <> Resolved (instances ++ records ++ records').
Proof.
  intros Hs Hs' Hlt Hgt Hu Hne Hrej Hn.
  pose proof (nextUrl_link pre u post Hlt Hgt Hu Hne) as Hnext.
  assert (Hscript :
           served JSON_parse server n url
           = [server url; server (JsString.chop u)]).
  { destruct n as [|[|n]]; [lia | lia |]. simpl.
    destruct (requestAssetData_serves JSON_parse EmptyString EmptyString url
                (server url) records _ Hs) as (r & hs & E & Hc).
    rewrite E. simpl. rewrite Hc, Hnext.
    unfold reply_rejects in Hrej.
    rewrite (settled_requestAssetData JSON_parse (JsString.chop u) EmptyString
               EmptyString EmptyString EmptyString EmptyString None None
               VUndefined VUndefined (server (JsString.chop u))).
    destruct (settled _); [discriminate | reflexivity | discriminate]. }
  assert (Hchop : JsString.chop u <> u).
  { intros E. apply (f_equal String.length) in E. rewrite chop_length in E.
    destruct u; [congruence | simpl in E; lia]. }
  assert (Hrun :
           requested
             (fst (getDomainObjectInstances JSON_parse url zoneId token
                     instances target [server url; server (JsString.chop u)]))
           = [url; JsString.chop u]
           /\ snd (getDomainObjectInstances JSON_parse url zoneId token
                     instances target
                     [server url; server (JsString.chop u)])
              = Pending).
  { destruct (requestAssetData_serves JSON_parse zoneId token url
                (server url) records _ Hs) as (r & hs & E & Hc).
    pose proof (requestAssetData_issued JSON_parse url zoneId token None
                  VUndefined (server url)) as Hi.
    rewrite E in Hi. simpl in Hi. inversion Hi. subst r.
    cbn [getDomainObjectInstances]. rewrite E. cbn [settled issued later].
    rewrite Hc, Hnext.
    pose proof (requestAssetData_issued JSON_parse (JsString.chop u) zoneId
                  token None VUndefined (server (JsString.chop u))) as Hi2.
    pose proof (requestAssetData_later JSON_parse (JsString.chop u) zoneId
                  token None VUndefined (server (JsString.chop u))) as Hl2.
    unfold reply_rejects in Hrej.
    rewrite (settled_requestAssetData JSON_parse EmptyString
               (JsString.chop u) EmptyString zoneId EmptyString token None
               None VUndefined VUndefined (server (JsString.chop u))) in Hrej.
    destruct (settled (requestAssetData JSON_parse (JsString.chop u) zoneId
                         token None VUndefined (server (JsString.chop u))));
      try discriminate.
    cbn [fst snd]. rewrite Hi2, !requested_app, (requested_quiet _ Hl2).
    split; reflexivity. }
  rewrite Hscript. destruct Hrun as [Hreq Hpend].
  split; [now apply between_brackets_link|].
  split; [reflexivity|]. split; [exact Hreq|]. split; [exact Hchop|].
  split; [exact Hpend|]. rewrite Hpend. discriminate.
Qed.

End Served.

(** The server of the samples: the second [GET] asks for the URL of the
    second page without its last character and is answered 404. *)
Lemma getDomainObjectInstances_misses_linked_page_witness :
  serves Sample.JSON_parse (Sample.linked_server Sample.first_url)
    [Sample.sensor1]
    (Some (link_value EmptyString Sample.second_url "; rel=next"))
  /\ serves Sample.JSON_parse (Sample.linked_server Sample.second_url)
       [Sample.sensor2] None
  /\ requested
       (fst (getDomainObjectInstances Sample.JSON_parse Sample.first_url
               "zone-origin" "Bearer t" [] (VNum 2)
               (served Sample.JSON_parse Sample.linked_server 5
                  Sample.first_url)))
     = [Sample.first_url;
        "https://asset.origin/sensors?pageSize=1000&cursor="%string]
  /\ snd (getDomainObjectInstances Sample.JSON_parse Sample.first_url
            "zone-origin" "Bearer t" [] (VNum 2)
            (served Sample.JSON_parse Sample.linked_server 5
               Sample.first_url))
     = Pending.
Proof.
  assert (H1 : serves Sample.JSON_parse
                 (Sample.linked_server Sample.first_url) [Sample.sensor1]
                 (Some (link_value EmptyString Sample.second_url
                          "; rel=next"))).
  { page_with_status "00"%string. split; [reflexivity | discriminate]. }
  assert (H2 : serves Sample.JSON_parse
                 (Sample.linked_server Sample.second_url) [Sample.sensor2]
                 None).
  { page_with_status "00"%string. reflexivity. }
  split; [exact H1|]. split; [exact H2|].
  destruct (getDomainObjectInstances_misses_linked_page Sample.JSON_parse
              "zone-origin" "Bearer t" (VNum 2) Sample.linked_server
              Sample.first_url EmptyString Sample.second_url "; rel=next" []
              [Sample.sensor1] [Sample.sensor2] 5 H1 H2 eq_refl eq_refl
              eq_refl ltac:(discriminate) eq_refl ltac:(lia))
    as (_ & _ & Hreq & _ & Hpend & _).
  split; [exact Hreq | exact Hpend].
Defined.
